(** * pupsh: a verification development for [app/main.py]

    The interpreter reads a line, tokenizes it with [shlex], separates the
    redirection operators from the command, and dispatches to a builtin or to
    an external executable; it keeps a readline history with an incremental
    flush.  This file embeds those functions and proves properties of them.

    Conventions of the embedding.
    - Python [str] is [string]; every character the program inspects (the
      whitespace, quote, escape, comment and digit characters) is ASCII, and
      the model covers ASCII text.
    - Python [int] is [Z].
    - A call that may raise returns a [result]; code that reads or writes the
      process state (module globals, [sys.stdout], the readline history, the
      working directory, files) is a function [world -> world * result A].
      State written before an exception is raised stays written.
    - The file system is a finite map from path strings to nodes.  A relative
      path is looked up below the working directory; paths are compared as
      text.  A write to a file stream goes to the file at once. *)

From Stdlib Require Import ZArith Lia Ascii String DecimalString DecimalPos DecimalN.
From stdpp Require Import base tactics option list gmap strings.

Local Open Scope Z_scope.

(** ** Python values and exceptions *)

Inductive exn : Type :=
  | IndexError
  | ValueError
  | TypeError
  | EOFError
  | FileNotFoundError     (* subclass of OSError *)
  | IsADirectoryError     (* subclass of OSError *)
  | NotADirectoryError    (* subclass of OSError *)
  | SystemExit (code : Z).

Definition is_OSError (e : exn) : bool :=
  match e with
  | FileNotFoundError | IsADirectoryError | NotADirectoryError => true
  | _ => false
  end.

Definition is_FileNotFoundError (e : exn) : bool :=
  match e with
  | FileNotFoundError => true
  | _ => false
  end.

Inductive result (A : Type) : Type :=
  | Ok (a : A)
  | Raise (e : exn).
Arguments Ok {A} a.
Arguments Raise {A} e.

(** ** [str] methods used by the program *)

Module Str.

Definition chr (n : nat) : ascii := ascii_of_nat n.

(** [str.isspace] on one ASCII character: TAB, LF, VT, FF, CR, the four
    separators FS, GS, RS, US, and the space. *)
Definition isspace (c : ascii) : bool :=
  let n := nat_of_ascii c in
  ((9 <=? n) && (n <=? 13) || (28 <=? n) && (n <=? 32))%nat.

Definition is_digit_char (c : ascii) : bool :=
  let n := nat_of_ascii c in ((48 <=? n) && (n <=? 57))%nat.

Fixpoint all_chars (p : ascii -> bool) (s : string) : bool :=
  match s with
  | EmptyString => true
  | String c s' => p c && all_chars p s'
  end.

(** [c in chars] for a one-character [c]. *)
Fixpoint contains (chars : string) (c : ascii) : bool :=
  match chars with
  | EmptyString => false
  | String d chars' => bool_decide (c = d) || contains chars' c
  end.

(** [s.isdigit()]: at least one character and all of them digits. *)
Definition isdigit (s : string) : bool :=
  match s with
  | EmptyString => false
  | _ => all_chars is_digit_char s
  end.

Fixpoint lstrip (s : string) : string :=
  match s with
  | EmptyString => EmptyString
  | String c s' => if isspace c then lstrip s' else s
  end.

Fixpoint rstrip (s : string) : string :=
  match s with
  | EmptyString => EmptyString
  | String c s' =>
      match rstrip s' with
      | EmptyString => if isspace c then EmptyString else String c EmptyString
      | r => String c r
      end
  end.

(** [s.strip()] *)
Definition strip (s : string) : string := rstrip (lstrip s).

(** [s.split()] with no separator: the maximal runs of non-whitespace. *)
Fixpoint split_go (cur : string) (s : string) : list string :=
  match s with
  | EmptyString => if decide (cur = "") then [] else [cur]
  | String c s' =>
      if isspace c
      then (if decide (cur = "") then split_go "" s' else cur :: split_go "" s')
      else split_go (cur +:+ String c "") s'
  end.
Definition split (s : string) : list string := split_go "" s.

(** [s.split(sep)] for a one-character separator: never the empty list. *)
Fixpoint split_on_go (sep : ascii) (cur : string) (s : string) : list string :=
  match s with
  | EmptyString => [cur]
  | String c s' =>
      if decide (c = sep) then cur :: split_on_go sep "" s'
      else split_on_go sep (cur +:+ String c "") s'
  end.
Definition split_on (sep : ascii) (s : string) : list string :=
  split_on_go sep "" s.

(** [sep.join(l)] *)
Fixpoint join (sep : string) (l : list string) : string :=
  match l with
  | [] => ""
  | [x] => x
  | x :: l' => x +:+ sep +:+ join sep l'
  end.

Definition startswith (s : string) (pre : string) : bool := String.prefix pre s.

Definition endswith_char (s : string) (c : ascii) : bool :=
  match String.rev s with
  | String d _ => bool_decide (d = c)
  | EmptyString => false
  end.

(** [int(s)] on the strings the program passes to it.  [int] ignores
    surrounding whitespace; the program calls it only under the guard
    [s.strip().isdigit()], so only unsigned decimal numerals reach it.  On
    anything else the model raises [ValueError]. *)
Definition int (s : string) : result Z :=
  let t := strip s in
  if isdigit t then
    match NilEmpty.uint_of_string t with
    | Some d => Ok (Z.of_uint d)
    | None => Raise ValueError
    end
  else Raise ValueError.

(** [bool(s)] for an [Optional[str]]: [None] and [""] are falsy. *)
Definition truthy (o : option string) : bool :=
  match o with
  | Some s => negb (bool_decide (s = ""))
  | None => false
  end.

End Str.

(** ** The [shlex] lexer as the program configures it

    [parse_input] builds [shlex.shlex(command, posix=True)] and sets
    [whitespace_split]; every other attribute keeps its default: the
    whitespace is space, TAB, CR and LF; the quotes are the single and the
    double quote; the escape is the backslash; the only escaped quote is the
    double quote; the only commenter is the hash sign; there are no
    punctuation characters.
    [read_char] is one turn of the [while True] loop of [shlex.read_token] on
    a character that was read, [read_eof] the turn on which
    [instream.read(1)] returns the empty string.  The instance variables keep
    their names.  [read_token] returns one token per call; here the tokens
    returned so far are collected in [emitted], and the locals [quoted] and
    [escapedstate] are reset when a token is returned, as each call
    re-initialises them.  [self.instream.readline()] in a comment is the
    flag [in_comment]: characters are dropped up to and including the next
    line feed. *)

Module Shlex.

Definition whitespace : string :=
  String " " (String (Str.chr 9) (String (Str.chr 13) (String (Str.chr 10) ""))).
Definition quotes : string := String "'" (String (Str.chr 34) "").
Definition escape : string := String "\" "".
Definition escapedquotes : string := String (Str.chr 34) "".
Definition commenters : string := "#".
(** The ASCII word characters.  The lexer has accented letters among them
    too; under [whitespace_split] a word character and any other ordinary
    character are read alike. *)
Definition wordchars : string :=
  "abcdefghijklmnopqrstuvwxyzABCDEFGHIJKLMNOPQRSTUVWXYZ0123456789_".

Record lexer : Type := Lexer {
  state : ascii;
  token : string;
  escapedstate : ascii;
  quoted : bool;
  in_comment : bool;
  emitted : list string
}.

Definition initial : lexer :=
  {| state := " "; token := ""; escapedstate := " "; quoted := false;
     in_comment := false; emitted := [] |}.

Definition with_state (st : ascii) (lx : lexer) : lexer :=
  {| state := st; token := token lx; escapedstate := escapedstate lx;
     quoted := quoted lx; in_comment := in_comment lx; emitted := emitted lx |}.
Definition with_token (t : string) (lx : lexer) : lexer :=
  {| state := state lx; token := t; escapedstate := escapedstate lx;
     quoted := quoted lx; in_comment := in_comment lx; emitted := emitted lx |}.
Definition with_escapedstate (e : ascii) (lx : lexer) : lexer :=
  {| state := state lx; token := token lx; escapedstate := e;
     quoted := quoted lx; in_comment := in_comment lx; emitted := emitted lx |}.
Definition with_quoted (q : bool) (lx : lexer) : lexer :=
  {| state := state lx; token := token lx; escapedstate := escapedstate lx;
     quoted := q; in_comment := in_comment lx; emitted := emitted lx |}.
Definition with_in_comment (b : bool) (lx : lexer) : lexer :=
  {| state := state lx; token := token lx; escapedstate := escapedstate lx;
     quoted := quoted lx; in_comment := b; emitted := emitted lx |}.

(** [if self.token or (self.posix and quoted): break  else: continue]:
    the token is returned and the next call starts with fresh locals, or
    the loop goes on. *)
Definition break_or_continue (lx : lexer) : lexer :=
  if negb (bool_decide (token lx = "")) || quoted lx then
    {| state := state lx; token := ""; escapedstate := " "; quoted := false;
       in_comment := in_comment lx; emitted := emitted lx ++ [token lx] |}
  else lx.

Definition read_char (lx : lexer) (nextchar : ascii) : lexer :=
  if in_comment lx then
    (* inside self.instream.readline() *)
    if bool_decide (nextchar = Str.chr 10) then with_in_comment false lx else lx
  else if bool_decide (state lx = " "%char) then
    if Str.contains whitespace nextchar then break_or_continue lx
    else if Str.contains commenters nextchar then with_in_comment true lx
    else if Str.contains escape nextchar then
      with_state nextchar (with_escapedstate "a" lx)
    else if Str.contains wordchars nextchar then
      with_state "a" (with_token (String nextchar "") lx)
    else if Str.contains quotes nextchar then with_state nextchar lx
    else (* self.whitespace_split *)
      with_state "a" (with_token (String nextchar "") lx)
  else if Str.contains quotes (state lx) then
    let lx := with_quoted true lx in
    if bool_decide (nextchar = state lx) then with_state "a" lx
    else if Str.contains escape nextchar && Str.contains escapedquotes (state lx)
    then with_state nextchar (with_escapedstate (state lx) lx)
    else with_token (token lx +:+ String nextchar "") lx
  else if Str.contains escape (state lx) then
    let lx :=
      if Str.contains quotes (escapedstate lx)
         && negb (bool_decide (nextchar = state lx))
         && negb (bool_decide (nextchar = escapedstate lx))
      then with_token (token lx +:+ String (state lx) "") lx
      else lx in
    with_state (escapedstate lx) (with_token (token lx +:+ String nextchar "") lx)
  else if bool_decide (state lx = "a"%char) then
    if Str.contains whitespace nextchar then
      break_or_continue (with_state " " lx)
    else if Str.contains commenters nextchar then
      break_or_continue (with_state " " (with_in_comment true lx))
    else if Str.contains quotes nextchar then with_state nextchar lx
    else if Str.contains escape nextchar then
      with_state nextchar (with_escapedstate "a" lx)
    else (* a word character, or any other one under whitespace_split *)
      with_token (token lx +:+ String nextchar "") lx
  else lx.

Fixpoint feed (lx : lexer) (s : string) : lexer :=
  match s with
  | EmptyString => lx
  | String c s' => feed (read_char lx c) s'
  end.

(** End of input.  In the quote and escape states [read_token] raises
    [ValueError]; otherwise [self.state] becomes [None], the pending token
    is returned unless it is empty and unquoted, and the next call ends
    the iteration. *)
Definition read_eof (lx : lexer) : result (list string) :=
  if bool_decide (state lx = " "%char) || bool_decide (state lx = "a"%char) then
    Ok (emitted (break_or_continue lx))
  else if Str.contains quotes (state lx) then Raise ValueError
  else if Str.contains escape (state lx) then Raise ValueError
  else Ok (emitted lx).

(** [list(lexer)] *)
Definition tokens_of (command : string) : result (list string) :=
  read_eof (feed initial command).

End Shlex.

Definition parse_input (command : string) : result (list string) :=
  Shlex.tokens_of command.

(** ** Redirection extraction *)

(** The five values [extract_redirections] returns, under the names of its
    locals.  A mode is the string given to [open]: w truncates, a appends. *)
Record extracted : Type := Extracted {
  command : list string;
  stdout_target : option string;
  stdout_mode : string;
  stderr_target : option string;
  stderr_mode : string
}.

(** The [while i<len(tokens)] loop.  The recursion is on the tokens from
    index [i] on; [tokens[i+1]] is the head of the rest and raises
    [IndexError] when there is none; [i+=2] continues after it. *)
Fixpoint extract_loop (tokens : list string) (acc : extracted) : result extracted :=
  match tokens with
  | [] => Ok acc
  | token :: rest =>
      if bool_decide (token ∈ [">"; "1>"]) then
        match rest with
        | target :: rest' =>
            extract_loop rest'
              (Extracted (command acc) (Some target) "w" (stderr_target acc) (stderr_mode acc))
        | [] => Raise IndexError
        end
      else if bool_decide (token = "2>") then
        match rest with
        | target :: rest' =>
            extract_loop rest'
              (Extracted (command acc) (stdout_target acc) (stdout_mode acc) (Some target) "w")
        | [] => Raise IndexError
        end
      else if bool_decide (token ∈ [">>"; "1>>"]) then
        match rest with
        | target :: rest' =>
            extract_loop rest'
              (Extracted (command acc) (Some target) "a" (stderr_target acc) (stderr_mode acc))
        | [] => Raise IndexError
        end
      else if bool_decide (token = "2>>") then
        match rest with
        | target :: rest' =>
            extract_loop rest'
              (Extracted (command acc) (stdout_target acc) (stdout_mode acc) (Some target) "a")
        | [] => Raise IndexError
        end
      else
        extract_loop rest
          (Extracted (command acc ++ [token]) (stdout_target acc) (stdout_mode acc)
                     (stderr_target acc) (stderr_mode acc))
  end.

Definition extract_redirections (tokens : list string) : result extracted :=
  extract_loop tokens (Extracted [] None "w" None "w").

(** ** The process state *)

Inductive node : Type :=
  | Dir
  | File (executable : bool) (content : string).

(** A text stream object: one of the two terminal streams the process starts
    with, or the object [open] returned for the file at a path. *)
Inductive stream : Type :=
  | TerminalOut
  | TerminalErr
  | FileStream (path : string).

(** One [subprocess.run(argv, executable=..., stdout=..., stderr=...)]. *)
Record spawn : Type := Spawn {
  spawn_argv : list string;
  spawn_executable : string;
  spawn_stdout : option stream;
  spawn_stderr : option stream
}.

Record world : Type := World {
  cwd : string;                        (* os.getcwd() *)
  home : string;                       (* os.path.expanduser of the tilde *)
  fs : gmap string node;
  environ_PATH : option string;
  environ_HISTFILE : option string;
  history : list string;               (* the readline history, item 1 first *)
  last_appended_index : Z;             (* module global *)
  initial_history_length : Z;          (* module global *)
  sys_stdout : stream;
  sys_stderr : stream;
  terminal_out : string;               (* text shown on the terminal, stdout *)
  terminal_err : string;               (* text shown on the terminal, stderr *)
  spawned : list spawn                 (* child processes run so far *)
}.

Definition set_cwd (x : string) (w : world) : world :=
  World x (home w) (fs w) (environ_PATH w) (environ_HISTFILE w) (history w)
        (last_appended_index w) (initial_history_length w) (sys_stdout w)
        (sys_stderr w) (terminal_out w) (terminal_err w) (spawned w).
Definition set_fs (x : gmap string node) (w : world) : world :=
  World (cwd w) (home w) x (environ_PATH w) (environ_HISTFILE w) (history w)
        (last_appended_index w) (initial_history_length w) (sys_stdout w)
        (sys_stderr w) (terminal_out w) (terminal_err w) (spawned w).
Definition set_history (x : list string) (w : world) : world :=
  World (cwd w) (home w) (fs w) (environ_PATH w) (environ_HISTFILE w) x
        (last_appended_index w) (initial_history_length w) (sys_stdout w)
        (sys_stderr w) (terminal_out w) (terminal_err w) (spawned w).
Definition set_last_appended_index (x : Z) (w : world) : world :=
  World (cwd w) (home w) (fs w) (environ_PATH w) (environ_HISTFILE w) (history w)
        x (initial_history_length w) (sys_stdout w)
        (sys_stderr w) (terminal_out w) (terminal_err w) (spawned w).
Definition set_initial_history_length (x : Z) (w : world) : world :=
  World (cwd w) (home w) (fs w) (environ_PATH w) (environ_HISTFILE w) (history w)
        (last_appended_index w) x (sys_stdout w)
        (sys_stderr w) (terminal_out w) (terminal_err w) (spawned w).
Definition set_sys_stdout (x : stream) (w : world) : world :=
  World (cwd w) (home w) (fs w) (environ_PATH w) (environ_HISTFILE w) (history w)
        (last_appended_index w) (initial_history_length w) x
        (sys_stderr w) (terminal_out w) (terminal_err w) (spawned w).
Definition set_sys_stderr (x : stream) (w : world) : world :=
  World (cwd w) (home w) (fs w) (environ_PATH w) (environ_HISTFILE w) (history w)
        (last_appended_index w) (initial_history_length w) (sys_stdout w)
        x (terminal_out w) (terminal_err w) (spawned w).
Definition set_terminal_out (x : string) (w : world) : world :=
  World (cwd w) (home w) (fs w) (environ_PATH w) (environ_HISTFILE w) (history w)
        (last_appended_index w) (initial_history_length w) (sys_stdout w)
        (sys_stderr w) x (terminal_err w) (spawned w).
Definition set_terminal_err (x : string) (w : world) : world :=
  World (cwd w) (home w) (fs w) (environ_PATH w) (environ_HISTFILE w) (history w)
        (last_appended_index w) (initial_history_length w) (sys_stdout w)
        (sys_stderr w) (terminal_out w) x (spawned w).
Definition set_spawned (x : list spawn) (w : world) : world :=
  World (cwd w) (home w) (fs w) (environ_PATH w) (environ_HISTFILE w) (history w)
        (last_appended_index w) (initial_history_length w) (sys_stdout w)
        (sys_stderr w) (terminal_out w) (terminal_err w) x.

(** ** Statements: state and exceptions *)

Definition M (A : Type) : Type := world -> world * result A.

Definition ret {A} (a : A) : M A := fun w => (w, Ok a).
Definition raise {A} (e : exn) : M A := fun w => (w, Raise e).
Definition bind {A B} (m : M A) (k : A -> M B) : M B :=
  fun w => match m w with
           | (w', Ok a) => k a w'
           | (w', Raise e) => (w', Raise e)
           end.
Definition lift {A} (r : result A) : M A := fun w => (w, r).
Definition get {A} (f : world -> A) : M A := fun w => (w, Ok (f w)).
Definition modify (f : world -> world) : M unit := fun w => (f w, Ok tt).

Declare Scope py_scope.
Delimit Scope py_scope with py.
Notation "'let*' x ':=' m 'in' k" := (bind m (fun x => k))
  (at level 10, x name, m at level 100, k at level 200) : py_scope.
Notation "m '>>' k" := (bind m (fun _ => k))
  (at level 90, right associativity) : py_scope.
Local Open Scope py_scope.

(** [try: body  except <class>: handler]; [catches e] says whether the
    class of the clause contains [e]. *)
Definition try_except {A} (body : M A) (catches : exn -> bool) (handler : M A) : M A :=
  fun w => match body w with
           | (w', Raise e) => if catches e then handler w' else (w', Raise e)
           | r => r
           end.

(** [for x in l: body x] *)
Fixpoint for_each {A} (l : list A) (body : A -> M unit) : M unit :=
  match l with
  | [] => ret tt
  | x :: l' => body x >> for_each l' body
  end.

(** [range(a, b)] *)
Definition range (a b : Z) : list Z := seqZ a (b - a).

(** ** The operating system and the readline library

    What the program calls but does not define.  Each definition gives the
    documented behaviour of the call on the file-system model. *)

Definition NUL : ascii := Str.chr 0.
Definition LF : string := String (Str.chr 10) "".

(** [os.path.join(a, p)] *)
Definition os_path_join (a p : string) : string :=
  if Str.startswith p "/" then p
  else if bool_decide (a = "") || Str.endswith_char a "/" then a +:+ p
  else a +:+ "/" +:+ p.

(** The node a path names, seen from the working directory.  The empty
    path names nothing. *)
Definition abspath (w : world) (path : string) : string :=
  os_path_join (cwd w) path.
Definition stat (w : world) (path : string) : option node :=
  if bool_decide (path = "") then None else fs w !! abspath w path.

Definition os_path_isdir (w : world) (path : string) : bool :=
  match stat w path with Some Dir => true | _ => false end.
Definition os_path_isfile (w : world) (path : string) : bool :=
  match stat w path with Some (File _ _) => true | _ => false end.
(** [os.access(path, os.X_OK)] *)
Definition os_access_X_OK (w : world) (path : string) : bool :=
  match stat w path with
  | Some (File x _) => x
  | Some Dir => true
  | None => false
  end.

(** [os.chdir(path)]: [ValueError] on an embedded NUL, an [OSError] when
    the path does not name a directory. *)
Definition os_chdir (path : string) : M unit := fun w =>
  if Str.contains path NUL then (w, Raise ValueError)
  else match stat w path with
       | Some Dir => (set_cwd (abspath w path) w, Ok tt)
       | Some (File _ _) => (w, Raise NotADirectoryError)
       | None => (w, Raise FileNotFoundError)
       end.

(** [open(path, mode)] for the modes w and a: the file is created when the
    path names nothing, and emptied under w. *)
Definition open (path mode : string) : M stream := fun w =>
  if Str.contains path NUL then (w, Raise ValueError)
  else if bool_decide (path = "") then (w, Raise FileNotFoundError)
  else
    let key := abspath w path in
    match fs w !! key with
    | Some Dir => (w, Raise IsADirectoryError)
    | Some (File x c) =>
        if bool_decide (mode = "w")
        then (set_fs (<[key := File x ""]> (fs w)) w, Ok (FileStream key))
        else if bool_decide (mode = "a") then (w, Ok (FileStream key))
        else (w, Raise ValueError)
    | None =>
        if bool_decide (mode = "w") || bool_decide (mode = "a")
        then (set_fs (<[key := File false ""]> (fs w)) w, Ok (FileStream key))
        else (w, Raise ValueError)
    end.

(** The text of the file at a key of the map; none is the empty text. *)
Definition file_text (m : gmap string node) (key : string) : string :=
  match m !! key with
  | Some (File _ c) => c
  | _ => ""
  end.
Definition file_flag (m : gmap string node) (key : string) : bool :=
  match m !! key with
  | Some (File x _) => x
  | _ => false
  end.

(** [f.write(text)] *)
Definition write (f : stream) (text : string) : M unit := fun w =>
  match f with
  | TerminalOut => (set_terminal_out (terminal_out w +:+ text) w, Ok tt)
  | TerminalErr => (set_terminal_err (terminal_err w +:+ text) w, Ok tt)
  | FileStream key =>
      (set_fs (<[key := File (file_flag (fs w) key) (file_text (fs w) key +:+ text)]> (fs w)) w,
       Ok tt)
  end.

(** [print(text)]: the text and a line feed, to the current [sys.stdout]. *)
Definition print (text : string) : M unit := fun w =>
  write (sys_stdout w) (text +:+ LF) w.

(** [with open(path, mode) as f: body f].  Leaving the block, by its end or
    by an exception, closes the file; closing changes nothing here, since
    writes are not buffered. *)
Definition with_open {A} (path mode : string) (body : stream -> M A) : M A :=
  let* f := open path mode in body f.

(** [subprocess.run]: the child is a black box, only the call is recorded. *)
Definition subprocess_run (argv : list string) (executable : string)
    (out err : option stream) : M unit :=
  modify (fun w => set_spawned (spawned w ++ [Spawn argv executable out err]) w).

(** [readline.get_current_history_length()] *)
Definition get_current_history_length (w : world) : Z :=
  Z.of_nat (length (history w)).

(** [readline.get_history_item(i)]: items are numbered from 1; [None]
    outside the range. *)
Definition get_history_item (w : world) (i : Z) : option string :=
  if 1 <=? i then history w !! Z.to_nat (i - 1) else None.

(** [readline.add_history(line)] *)
Definition add_history (line : string) : M unit :=
  modify (fun w => set_history (history w ++ [line]) w).

(** The entries a history file holds: its lines, the empty ones skipped. *)
Definition history_file_entries (text : string) : list string :=
  filter (fun l => l ≠ "") (Str.split_on (Str.chr 10) text).

Definition entries_text (entries : list string) : string :=
  foldr (fun e acc => e +:+ LF +:+ acc) "" entries.

(** [history_truncate_file]: only the last [n] lines of the text stay.
    [readline_config] sets the history length to 1000, and the write and
    append calls truncate the file to it. *)
Definition history_truncate (n : nat) (text : string) : string :=
  let ls := Str.split_on (Str.chr 10) text in
  let k := length ls in
  if (k <=? S n)%nat then text
  else Str.join LF (drop (k - S n) ls).
Definition history_length : nat := 1000.

(** [readline.read_history_file(path)] *)
Definition read_history_file (path : string) : M unit := fun w =>
  if Str.contains path NUL then (w, Raise ValueError)
  else match stat w path with
       | Some (File _ c) => (set_history (history w ++ history_file_entries c) w, Ok tt)
       | Some Dir => (w, Raise IsADirectoryError)
       | None => (w, Raise FileNotFoundError)
       end.

(** [readline.write_history_file(path)]: the file is created or emptied,
    and holds the whole history. *)
Definition write_history_file (path : string) : M unit := fun w =>
  if Str.contains path NUL then (w, Raise ValueError)
  else if bool_decide (path = "") then (w, Raise FileNotFoundError)
  else
    let key := abspath w path in
    match fs w !! key with
    | Some Dir => (w, Raise IsADirectoryError)
    | _ =>
        (set_fs (<[key := File (file_flag (fs w) key)
                            (history_truncate history_length (entries_text (history w)))]>
                   (fs w)) w, Ok tt)
    end.

(** [readline.append_history_file(nelements, path)]: the last [nelements]
    items are added at the end of the file, which must exist already. *)
Definition append_history_file (nelements : Z) (path : string) : M unit := fun w =>
  if Str.contains path NUL then (w, Raise ValueError)
  else match stat w path with
       | Some (File x c) =>
           let new := drop (length (history w) - Z.to_nat nelements)%nat (history w) in
           (set_fs (<[abspath w path :=
                        File x (history_truncate history_length (c +:+ entries_text new))]>
                      (fs w)) w, Ok tt)
       | Some Dir => (w, Raise IsADirectoryError)
       | None => (w, Raise FileNotFoundError)
       end.

(** ** The builtins *)

Definition write_to_history_file : M unit :=
  let* histfile := get environ_HISTFILE in
  if negb (Str.truthy histfile) then ret tt
  else
    let* total := get get_current_history_length in
    let* initial := get initial_history_length in
    let new_lines := total - initial in
    if 0 <? new_lines
    then append_history_file new_lines (default "" histfile)
    else ret tt.

Definition exit_shell (input : string) : M unit :=
  write_to_history_file >>
  if Str.isdigit (Str.strip input) then
    let* n := lift (Str.int input) in raise (SystemExit n)
  else raise (SystemExit 0).

Definition echo (input : string) : M unit := print input.

Definition get_cwd (_ : string) : M unit :=
  let* d := get cwd in print d.

(** The loop of [find_executable] over the directories of PATH. *)
Fixpoint find_in (w : world) (path_dirs : list string) (cmd : string) : option string :=
  match path_dirs with
  | [] => None
  | directory :: rest =>
      if negb (os_path_isdir w directory) then find_in w rest cmd
      else
        let full_path := os_path_join directory cmd in
        if os_path_isfile w full_path && os_access_X_OK w full_path
        then Some full_path
        else find_in w rest cmd
  end.

Definition find_executable (cmd : string) : M (option string) := fun w =>
  let path_dirs := Str.split_on ":" (default "" (environ_PATH w)) in
  (w, Ok (find_in w path_dirs cmd)).

(** The keys of [builtin_commands], in the order [_init_builtins] gives. *)
Definition builtin_names : list string :=
  ["exit"; "echo"; "type"; "pwd"; "cd"; "history"].

Definition typeOf (input : string) : M unit :=
  if bool_decide (input ∈ builtin_names) then
    print (input +:+ " is a shell builtin")
  else
    let* executable_path := find_executable input in
    if Str.truthy executable_path then
      print (input +:+ " is " +:+ default "" executable_path)
    else print (input +:+ ": not found").

Definition change_directory (input : string) : M unit :=
  let* input :=
    (if bool_decide (input = "~") then get home else ret input) in
  try_except (os_chdir input) is_OSError
    (print ("cd: " +:+ input +:+ ": No such file or directory")).

(** [str(i)] for an integer *)
Definition str_of_int (i : Z) : string := NilZero.string_of_int (Z.to_int i).

(** [f"{x}"] for an [Optional[str]] *)
Definition format_item (o : option string) : string := default "None" o.

(** The branch of [get_history] for [-a]: the items after the last one
    appended go to the file, then the mark moves to the end. *)
Definition history_append (file_path : string) : M unit :=
  let* total := get get_current_history_length in
  (with_open file_path "a" (fun f =>
     let* last := get last_appended_index in
     for_each (range (last + 1) (total + 1)) (fun i =>
       let* item := get (fun w => get_history_item w i) in
       match item with
       | Some text => write f (text +:+ LF)
       | None => raise TypeError     (* None + a string *)
       end))) >>
  modify (set_last_appended_index total).

(** The last branch of [get_history]: the last [n] items are printed. *)
Definition history_show (args : list string) : M unit :=
  let* n :=
    (if bool_decide (length args = 1%nat) && Str.isdigit (nth 0 args "")
     then lift (Str.int (nth 0 args ""))
     else ret 100) in
  let* total := get get_current_history_length in
  let startindex := Z.max (total - n) 0 in
  for_each (range (startindex + 1) (total + 1)) (fun i =>
    let* item := get (fun w => get_history_item w i) in
    print ("    " +:+ str_of_int i +:+ "  " +:+ format_item item)).

Definition get_history (input : string) : M unit :=
  let args := Str.split (Str.strip input) in
  if bool_decide (length args = 2%nat) && bool_decide (nth 0 args "" = "-r") then
    let file_path := nth 1 args "" in
    try_except (read_history_file file_path)
      is_FileNotFoundError
      (print ("history: " +:+ file_path +:+ ": No such file or directory"))
  else if bool_decide (length args = 2%nat) && bool_decide (nth 0 args "" = "-w") then
    write_history_file (nth 1 args "")
  else if bool_decide (length args = 2%nat) && bool_decide (nth 0 args "" = "-a") then
    history_append (nth 1 args "")
  else history_show args.

(** [builtin_commands] after [_init_builtins]. *)
Definition builtin_commands : list (string * (string -> M unit)) :=
  [("exit", exit_shell); ("echo", echo); ("type", typeOf);
   ("pwd", get_cwd); ("cd", change_directory); ("history", get_history)].

(** [builtin_commands[name]], defined when [name in builtin_commands]. *)
Fixpoint lookup_builtin (name : string) (d : list (string * (string -> M unit)))
    : option (string -> M unit) :=
  match d with
  | [] => None
  | (k, handler) :: d' =>
      if bool_decide (k = name) then Some handler else lookup_builtin name d'
  end.

(** ** Dispatch *)

(** [" ".join(commandArr[1:])] *)
Definition argument_string (commandArr : list string) : string :=
  Str.join " " (drop 1 commandArr).

Definition handle_command (command : string) : M unit :=
  let* tokens := lift (parse_input command) in
  let* ex := lift (extract_redirections tokens) in
  let '(Extracted commandArr stdout_target stdout_mode stderr_target stderr_mode) := ex in
  match commandArr with
  | [] => raise IndexError                 (* commandArr[0] *)
  | name :: _ =>
      match lookup_builtin name builtin_commands with
      | Some handler =>
          if Str.truthy stdout_target && Str.truthy stderr_target then
            with_open (default "" stdout_target) stdout_mode (fun stdout_file =>
            with_open (default "" stderr_target) stderr_mode (fun stderr_file =>
              let* old_stdout := get sys_stdout in
              let* old_stderr := get sys_stderr in
              modify (set_sys_stdout stdout_file) >>
              modify (set_sys_stderr stderr_file) >>
              handler (argument_string commandArr) >>
              modify (set_sys_stdout old_stdout) >>
              modify (set_sys_stderr old_stderr)))
          else if Str.truthy stdout_target then
            with_open (default "" stdout_target) stdout_mode (fun stdout_file =>
              let* old_stdout := get sys_stdout in
              modify (set_sys_stdout stdout_file) >>
              handler (argument_string commandArr) >>
              modify (set_sys_stdout old_stdout))
          else if Str.truthy stderr_target then
            with_open (default "" stderr_target) stderr_mode (fun stderr_file =>
              let* old_stderr := get sys_stderr in
              modify (set_sys_stderr stderr_file) >>
              handler (argument_string commandArr) >>
              modify (set_sys_stderr old_stderr))
          else handler (argument_string commandArr)
      | None =>
          let* executable_path := find_executable name in
          if Str.truthy executable_path then
            let executable := default "" executable_path in
            if Str.truthy stdout_target && Str.truthy stderr_target then
              with_open (default "" stdout_target) stdout_mode (fun stdout_file =>
              with_open (default "" stderr_target) stderr_mode (fun stderr_file =>
                subprocess_run commandArr executable (Some stdout_file) (Some stderr_file)))
            else if Str.truthy stdout_target then
              with_open (default "" stdout_target) stdout_mode (fun stdout_file =>
                subprocess_run commandArr executable (Some stdout_file) None)
            else if Str.truthy stderr_target then
              with_open (default "" stderr_target) stderr_mode (fun stderr_file =>
                subprocess_run commandArr executable None (Some stderr_file))
            else subprocess_run commandArr executable None None
          else print (name +:+ ": command not found")
      end
  end.

(** ** The read loop *)

Definition load_history : M unit :=
  let* histfile := get environ_HISTFILE in
  let* isfile := get (fun w => os_path_isfile w (default "" histfile)) in
  (if Str.truthy histfile && isfile
   then read_history_file (default "" histfile)
   else ret tt) >>
  let* n := get get_current_history_length in
  modify (set_initial_history_length n).

(** What the loop of [main] does with a line before it handles it. *)
Definition record_line (command : string) : M unit :=
  if negb (bool_decide (Str.strip command = "")) then add_history command
  else ret tt.

(** One turn of [while(True)] on the line [input] returned. *)
Definition main_turn (command : string) : M unit :=
  record_line command >> handle_command command.

(** [main] on the lines the user enters.  An exception that leaves a turn
    leaves [main]: the loop has no handler.  When the lines are used up,
    [input] raises [EOFError]. *)
Fixpoint main_loop (lines : list string) : M unit :=
  match lines with
  | [] => raise EOFError
  | command :: rest => main_turn command >> main_loop rest
  end.

Definition main (lines : list string) : M unit :=
  load_history >> main_loop lines.

(** ** Vocabulary of the statements *)

(** The six operators of [extract_redirections]. *)
Definition operators : list string := [">"; "1>"; ">>"; "1>>"; "2>"; "2>>"].
Definition is_operator (t : string) : bool := bool_decide (t ∈ operators).

(** The stream an operator redirects (1 is stdout, 2 is stderr) and the mode
    it opens the target with. *)
Definition operator_fd (op : string) : Z :=
  if bool_decide (op ∈ ["2>"; "2>>"]) then 2 else 1.
Definition operator_mode (op : string) : string :=
  if bool_decide (op ∈ [">>"; "1>>"; "2>>"]) then "a" else "w".

(** A command line as the scan reads it: a sequence of plain words and of
    operators, each with the token after it. *)
Inductive item : Type :=
  | Word (t : string)
  | Redirect (op : string) (target : string).

Definition item_ok (it : item) : Prop :=
  match it with
  | Word t => is_operator t = false
  | Redirect op _ => is_operator op = true
  end.

Definition item_tokens (it : item) : list string :=
  match it with
  | Word t => [t]
  | Redirect op target => [op; target]
  end.
Definition tokens_of_items (items : list item) : list string :=
  concat (map item_tokens items).

(** The words of a line, in their order. *)
Definition words_of (items : list item) : list string :=
  omap (fun it => match it with Word t => Some t | Redirect _ _ => None end) items.

(** The redirections of the stream [fd], in their order, as pairs of a
    target and a mode. *)
Definition redirects_of (fd : Z) (items : list item) : list (string * string) :=
  omap (fun it => match it with
                  | Redirect op target =>
                      if bool_decide (operator_fd op = fd)
                      then Some (target, operator_mode op) else None
                  | Word _ => None
                  end) items.

(** What the last redirection of a stream says; no target and mode w when
    there is none. *)
Definition final_target (rs : list (string * string)) : option string :=
  fst <$> last rs.
Definition final_mode (rs : list (string * string)) : string :=
  default "w" (snd <$> last rs).

(** The line holds at least one character that is not whitespace. *)
Definition has_nonspace (s : string) : Prop :=
  ∃ c, Str.contains s c = true ∧ Str.isspace c = false.

(** The lexer is outside quotes and escapes: in the whitespace state or in
    a word, or dropping a comment. *)
Definition unquoted (lx : Shlex.lexer) : Prop :=
  Shlex.state lx = " "%char ∨ Shlex.state lx = "a"%char.


(** A small world for examples: a home directory, one executable on PATH. *)
Definition sample_fs : gmap string node :=
  <["/" := Dir]> (<["/home" := Dir]> (<["/home/u" := Dir]>
  (<["/bin" := Dir]> (<["/bin/ls" := File true ""]> ∅)))).
Definition sample_world : world :=
  World "/home/u" "/home/u" sample_fs (Some "/bin") None [] 0 0
        TerminalOut TerminalErr "" "" [].

(** The same world in a session with a history file: one entry was loaded
    from it at startup and two lines were entered since. *)
Definition history_world : world :=
  World "/home/u" "/home/u" (<["/home/u/.hist" := File false ("pwd" +:+ LF)]> sample_fs)
        (Some "/bin") (Some "/home/u/.hist") ["pwd"; "ls"; "exit 3"] 0 1
        TerminalOut TerminalErr "" "" [].

(** The world after [text] was added at the end of the file at [key]. *)
Definition append_text (key text : string) (w : world) : world :=
  set_fs (<[key := File (file_flag (fs w) key) (file_text (fs w) key +:+ text)]> (fs w)) w.

(** A statement keeps the relation [R] when [R] holds between the state
    it starts in and the state it ends in, however it ends. *)
Definition kept (R : world -> world -> Prop) {A} (m : M A) : Prop :=
  ∀ w w' r, m w = (w', r) -> R w w'.

(** [sys.stdout] and [sys.stderr] are bound to the same objects. *)
Definition same_streams (w w' : world) : Prop :=
  sys_stdout w' = sys_stdout w ∧ sys_stderr w' = sys_stderr w.

(** The invariant of the history log: the mark of the entries already
    appended is at most the length. *)
Definition history_inv (w : world) : Prop :=
  0 <= last_appended_index w <= Z.of_nat (length (history w)).
Definition inv_step (w w' : world) : Prop := history_inv w -> history_inv w'.


(** The accumulator of the scan after a further run of items. *)
Definition scan_items (acc : extracted) (items : list item) : extracted :=
  Extracted (command acc ++ words_of items)
    (match last (redirects_of 1 items) with
     | Some r => Some (fst r) | None => stdout_target acc end)
    (match last (redirects_of 1 items) with
     | Some r => snd r | None => stdout_mode acc end)
    (match last (redirects_of 2 items) with
     | Some r => Some (fst r) | None => stderr_target acc end)
    (match last (redirects_of 2 items) with
     | Some r => snd r | None => stderr_mode acc end).

(** ** Completion

    [get_all_executables] and [auto_completer].  The module global
    [_executables_cache] is passed in and out; both functions read the rest
    of the state and leave it as it is. *)

(** The name of the entry of the directory at [dirkey] that the key [key]
    of the file map stands for, if it stands for one. *)
Definition child_name (dirkey key : string) : option string :=
  let prefix := if Str.endswith_char dirkey "/" then dirkey else dirkey +:+ "/" in
  if Str.startswith key prefix then
    let rest := String.substring (String.length prefix)
                  (String.length key - String.length prefix) key in
    if bool_decide (rest = "") || Str.contains rest "/" then None else Some rest
  else None.

(** [os.listdir(path)]: an [OSError] when the path names no directory. *)
Definition os_listdir (w : world) (path : string) : result (list string) :=
  if Str.contains path NUL then Raise ValueError
  else match stat w path with
       | Some Dir => Ok (omap (child_name (abspath w path)) (fst <$> map_to_list (fs w)))
       | Some (File _ _) => Raise NotADirectoryError
       | None => Raise FileNotFoundError
       end.

(** The class of [except PermissionError].  The file map has no
    permissions, so no call of the model raises an exception of it. *)
Definition is_PermissionError (e : exn) : bool := false.

(** The inner loop of [get_all_executables], over the names of one
    directory. *)
Fixpoint scan_names (w : world) (directory : string) (names : list string)
    (executables : gset string) : gset string :=
  match names with
  | [] => executables
  | filename :: rest =>
      let full_path := os_path_join directory filename in
      scan_names w directory rest
        (if os_path_isfile w full_path && os_access_X_OK w full_path
         then {[filename]} ∪ executables else executables)
  end.

(** The outer loop, over the directories of PATH, with its [try]. *)
Fixpoint scan_dirs (w : world) (path_dirs : list string) (executables : gset string)
    : result (gset string) :=
  match path_dirs with
  | [] => Ok executables
  | directory :: rest =>
      match os_listdir w directory with
      | Ok names => scan_dirs w rest (scan_names w directory names executables)
      | Raise e => if is_PermissionError e then scan_dirs w rest executables else Raise e
      end
  end.

(** [if _executables_cache:] is false for [None] and for the empty set. *)
Definition cache_truthy (c : option (gset string)) : bool :=
  match c with
  | Some s => negb (bool_decide (s = ∅))
  | None => false
  end.

Definition get_all_executables (c : option (gset string)) (w : world)
    : option (gset string) * result (gset string) :=
  if cache_truthy c then (c, Ok (default ∅ c))
  else
    let path_dirs := Str.split_on ":" (default "" (environ_PATH w)) in
    match scan_dirs w path_dirs ∅ with
    | Ok executables => (Some executables, Ok executables)
    | Raise e => (c, Raise e)
    end.




(** ** Vocabulary of the further statements *)

(** A character the lexer reads as itself, outside quotes: no whitespace,
    quote, backslash or hash sign. *)
Definition plain_char (c : ascii) : bool :=
  negb (Str.contains Shlex.whitespace c) && negb (Str.contains Shlex.quotes c)
  && negb (Str.contains Shlex.escape c) && negb (Str.contains Shlex.commenters c).
Definition plain_word (t : string) : Prop :=
  t ≠ "" ∧ Str.all_chars plain_char t = true.

(** The text between double quotes that stands for [s]: a backslash before
    each double quote and each backslash. *)
Fixpoint dq_escape (s : string) : string :=
  match s with
  | EmptyString => EmptyString
  | String c s' =>
      if bool_decide (c = Str.chr 34) || bool_decide (c = "\"%char)
      then String "\" (String c (dq_escape s'))
      else String c (dq_escape s')
  end.

(** The lexer is between tokens, or in a word, and not in a comment. *)
Definition between_tokens (lx : Shlex.lexer) : Prop :=
  unquoted lx ∧ Shlex.in_comment lx = false.


(** The test of [find_executable] on one directory of PATH. *)
Definition holds_executable (w : world) (cmd directory : string) : bool :=
  os_path_isdir w directory
  && os_path_isfile w (os_path_join directory cmd)
  && os_access_X_OK w (os_path_join directory cmd).

(** The directories of PATH, in their order. *)
Definition path_dirs_of (w : world) : list string :=
  Str.split_on ":" (default "" (environ_PATH w)).

(** Relations between the state before and the state after. *)
Definition same_spawned (w w' : world) : Prop := spawned w' = spawned w.
Definition history_grows (w w' : world) : Prop := history w `prefix_of` history w'.

(** * Facts *)

(** ** Redirection extraction *)

Lemma is_operator_cases (t : string) :
  is_operator t = true ->
  t = ">" ∨ t = "1>" ∨ t = ">>" ∨ t = "1>>" ∨ t = "2>" ∨ t = "2>>".
Proof.
  unfold is_operator, operators. intros H%bool_decide_eq_true.
  repeat (apply elem_of_cons in H as [H | H]; [tauto |]).
  by apply elem_of_nil in H.
Qed.

Lemma extract_loop_word (t : string) (rest : list string) (acc : extracted) :
  is_operator t = false ->
  extract_loop (t :: rest) acc =
  extract_loop rest
    (Extracted (command acc ++ [t]) (stdout_target acc) (stdout_mode acc)
               (stderr_target acc) (stderr_mode acc)).
Proof.
  unfold is_operator, operators. intros H%bool_decide_eq_false.
  cbn [extract_loop].
  rewrite !not_elem_of_cons in H. destruct H as (? & ? & ? & ? & ? & ? & _).
  rewrite !bool_decide_eq_false_2; [done | ..];
    rewrite ?not_elem_of_cons; repeat split; try done; apply not_elem_of_nil.
Qed.

Lemma last_cons_some {A} (x : A) (l : list A) :
  last (x :: l) = Some (default x (last l)).
Proof.
  destruct l as [| y l]; [done |].
  change (last (x :: y :: l)) with (last (y :: l)).
  destruct (last (y :: l)) eqn:E; [done |]. by apply last_None in E.
Qed.

Lemma scan_items_nil (acc : extracted) : scan_items acc [] = acc.
Proof. destruct acc. unfold scan_items. cbn. by rewrite app_nil_r. Qed.

Lemma scan_items_word (acc : extracted) (t : string) (items : list item) :
  scan_items acc (Word t :: items) =
  scan_items (Extracted (command acc ++ [t]) (stdout_target acc) (stdout_mode acc)
                        (stderr_target acc) (stderr_mode acc)) items.
Proof. unfold scan_items. cbn. by rewrite <- app_assoc. Qed.

Lemma scan_items_redirect (acc : extracted) (op target : string) (items : list item) :
  scan_items acc (Redirect op target :: items) =
  scan_items
    (if bool_decide (operator_fd op = 1)
     then Extracted (command acc) (Some target) (operator_mode op)
                    (stderr_target acc) (stderr_mode acc)
     else if bool_decide (operator_fd op = 2)
     then Extracted (command acc) (stdout_target acc) (stdout_mode acc)
                    (Some target) (operator_mode op)
     else acc) items.
Proof.
  assert (Hfd : operator_fd op = 1 ∨ operator_fd op = 2).
  { unfold operator_fd. case_bool_decide; auto. }
  assert (Hw : words_of (Redirect op target :: items) = words_of items) by done.
  assert (Hr : ∀ fd, redirects_of fd (Redirect op target :: items) =
                     (if bool_decide (operator_fd op = fd)
                      then [(target, operator_mode op)] else [])
                     ++ redirects_of fd items).
  { intros fd. unfold redirects_of. cbn. by case_bool_decide. }
  unfold scan_items. rewrite Hw, !Hr.
  destruct Hfd as [Hfd | Hfd]; rewrite Hfd;
    repeat case_bool_decide; try lia;
    cbn [command stdout_target stdout_mode stderr_target stderr_mode app];
    rewrite ?last_cons_some;
    destruct (last (redirects_of 1 items)) as [[??]|],
             (last (redirects_of 2 items)) as [[??]|];
    reflexivity.
Qed.

Lemma extract_loop_items (items : list item) (acc : extracted) :
  Forall item_ok items ->
  extract_loop (tokens_of_items items) acc = Ok (scan_items acc items).
Proof.
  intros Hok. revert acc. induction Hok as [| it items Hit _ IH]; intros acc.
  - by rewrite scan_items_nil.
  - destruct it as [t | op target]; cbn in Hit.
    + change (tokens_of_items (Word t :: items)) with (t :: tokens_of_items items).
      by rewrite extract_loop_word, IH, scan_items_word.
    + change (tokens_of_items (Redirect op target :: items))
        with (op :: target :: tokens_of_items items).
      rewrite scan_items_redirect.
      destruct (is_operator_cases _ Hit) as [-> | [-> | [-> | [-> | [-> | ->]]]]];
        cbn [extract_loop]; apply IH.
Qed.

Lemma extract_loop_dangling (items : list item) (op : string) (acc : extracted) :
  Forall item_ok items -> is_operator op = true ->
  extract_loop (tokens_of_items items ++ [op]) acc = Raise IndexError.
Proof.
  intros Hok Hop. revert acc. induction Hok as [| it items Hit _ IH]; intros acc.
  - destruct (is_operator_cases _ Hop) as [-> | [-> | [-> | [-> | [-> | ->]]]]];
      reflexivity.
  - destruct it as [t | o target]; cbn in Hit.
    + change (tokens_of_items (Word t :: items) ++ [op])
        with (t :: (tokens_of_items items ++ [op])).
      by rewrite extract_loop_word, IH.
    + change (tokens_of_items (Redirect o target :: items) ++ [op])
        with (o :: target :: (tokens_of_items items ++ [op])).
      destruct (is_operator_cases _ Hit) as [-> | [-> | [-> | [-> | [-> | ->]]]]];
        cbn [extract_loop]; apply IH.
Qed.

(** Every token sequence reads as items, with at most one operator left
    over at the end. *)
Lemma tokens_decompose (tokens : list string) :
  ∃ items, Forall item_ok items ∧
    (tokens = tokens_of_items items ∨
     ∃ op, is_operator op = true ∧ tokens = tokens_of_items items ++ [op]).
Proof.
  remember (length tokens) as n eqn:Hn.
  revert tokens Hn. induction (lt_wf n) as [n _ IH]. intros tokens ->.
  destruct tokens as [| t rest].
  { exists []. split; [constructor | by left]. }
  destruct (is_operator t) eqn:Ht.
  - destruct rest as [| target rest'].
    { exists []. split; [constructor |]. right. by exists t. }
    destruct (IH (length rest')) with (tokens := rest')
      as (items & Hok & Hsplit); [cbn; lia | done |].
    exists (Redirect t target :: items). split; [by constructor |].
    destruct Hsplit as [-> | (op & Hop & ->)]; [by left |].
    right. by exists op.
  - destruct (IH (length rest)) with (tokens := rest)
      as (items & Hok & Hsplit); [cbn; lia | done |].
    exists (Word t :: items). split; [by constructor |].
    destruct Hsplit as [-> | (op & Hop & ->)]; [by left |].
    right. by exists op.
Qed.

Lemma words_of_plain (items : list item) :
  Forall item_ok items -> Forall (fun t => is_operator t = false) (words_of items).
Proof.
  induction 1 as [| [t | op target] items Hit _ IH]; cbn; [constructor | | done].
  by constructor.
Qed.

Lemma extract_ok_items (tokens : list string) (ex : extracted) :
  extract_redirections tokens = Ok ex ->
  ∃ items, Forall item_ok items ∧ tokens = tokens_of_items items ∧
           ex = scan_items (Extracted [] None "w" None "w") items.
Proof.
  intros Hex. destruct (tokens_decompose tokens) as (items & Hok & [-> | (op & Hop & ->)]).
  - exists items. unfold extract_redirections in Hex.
    rewrite extract_loop_items in Hex by done. by injection Hex as <-.
  - unfold extract_redirections in Hex.
    by rewrite extract_loop_dangling in Hex.
Qed.

Lemma extract_command_plain (tokens : list string) (ex : extracted) :
  extract_redirections tokens = Ok ex ->
  Forall (fun t => is_operator t = false) (command ex).
Proof.
  intros (items & Hok & _ & ->)%extract_ok_items. cbn. by apply words_of_plain.
Qed.


Lemma scan_items_initial (items : list item) :
  scan_items (Extracted [] None "w" None "w") items =
  Extracted (words_of items)
    (final_target (redirects_of 1 items)) (final_mode (redirects_of 1 items))
    (final_target (redirects_of 2 items)) (final_mode (redirects_of 2 items)).
Proof.
  unfold scan_items, final_target, final_mode. cbn.
  by destruct (last (redirects_of 1 items)), (last (redirects_of 2 items)).
Qed.

(** C4. For every token sequence made of plain words and of operators each
    followed by one token, [extract_redirections] returns the words alone,
    in their order, wherever the operators stand; for each stream the last
    operator of that stream gives the target and the mode (w to truncate, a
    to append), and a stream without operator has no target and mode w.  So
    an operator goes together with exactly the token after it.  Every token
    sequence on which the extractor returns is of that form.  The two lines
    of the specification, with the redirection last and first, give the
    same result. *)
Theorem extract_redirections_items (items : list item) :
  Forall item_ok items ->
  extract_redirections (tokens_of_items items) =
    Ok (Extracted (words_of items)
          (final_target (redirects_of 1 items)) (final_mode (redirects_of 1 items))
          (final_target (redirects_of 2 items)) (final_mode (redirects_of 2 items)))
  ∧ (∀ tokens ex, extract_redirections tokens = Ok ex ->
       ∃ items', Forall item_ok items' ∧ tokens = tokens_of_items items' ∧
         ex = Extracted (words_of items')
                (final_target (redirects_of 1 items')) (final_mode (redirects_of 1 items'))
                (final_target (redirects_of 2 items')) (final_mode (redirects_of 2 items')))
  ∧ extract_redirections ["echo"; "hi"; ">"; "out.txt"]
    = Ok (Extracted ["echo"; "hi"] (Some "out.txt") "w" None "w")
  ∧ extract_redirections [">"; "out.txt"; "echo"; "hi"]
    = Ok (Extracted ["echo"; "hi"] (Some "out.txt") "w" None "w").
Proof.
  intros Hok. split; [| split; [| split; reflexivity]].
  - unfold extract_redirections. rewrite extract_loop_items by done.
    by rewrite scan_items_initial.
  - intros tokens ex (items' & Hok' & -> & ->)%extract_ok_items.
    exists items'. by rewrite scan_items_initial.
Qed.

Lemma extract_redirections_items_witness :
  extract_redirections ["2>"; "e1"; "cat"; ">"; "a"; "x"; "1>>"; "b"; "2>>"; "e2"; "y"]
  = Ok (Extracted ["cat"; "x"; "y"] (Some "b") "a" (Some "e2") "a").
Proof.
  refine (proj1 (extract_redirections_items
    [Redirect "2>" "e1"; Word "cat"; Redirect ">" "a"; Word "x";
     Redirect "1>>" "b"; Redirect "2>>" "e2"; Word "y"] _)).
  repeat constructor.
Defined.


(** ** Dispatch: the lines that raise before anything runs *)

Lemma handle_command_extract_raises (cmd : string) (tokens : list string) (e : exn) (w : world) :
  parse_input cmd = Ok tokens ->
  extract_redirections tokens = Raise e ->
  handle_command cmd w = (w, Raise e).
Proof.
  intros Hp Hx. unfold handle_command, bind, lift. by rewrite Hp, Hx.
Qed.

Lemma handle_command_no_tokens (cmd : string) (w : world) :
  parse_input cmd = Ok [] -> handle_command cmd w = (w, Raise IndexError).
Proof.
  intros Hp. unfold handle_command, bind, lift. by rewrite Hp.
Qed.

Lemma feed_whitespace (cmd : string) :
  Str.all_chars (Str.contains Shlex.whitespace) cmd = true ->
  Shlex.feed Shlex.initial cmd = Shlex.initial.
Proof.
  induction cmd as [| c cmd IH]; [done |].
  intros [Hc Hs]%andb_true_iff. cbn [Shlex.feed].
  replace (Shlex.read_char Shlex.initial c) with Shlex.initial; [by apply IH |].
  unfold Shlex.read_char. cbn [Shlex.in_comment Shlex.state Shlex.initial].
  rewrite bool_decide_eq_true_2 by done. by rewrite Hc.
Qed.

(** Every line of blanks raises as the empty line does. *)
Lemma blank_line_raises (cmd : string) (w : world) :
  Str.all_chars (Str.contains Shlex.whitespace) cmd = true ->
  handle_command cmd w = (w, Raise IndexError).
Proof.
  intros Hs. apply handle_command_no_tokens.
  unfold parse_input, Shlex.tokens_of. by rewrite feed_whitespace.
Qed.

(** C1, where the code fails: on the empty line [handle_command] raises
    [IndexError] at [commandArr[0]], and the read loop, which has no
    handler, ends with it; the lines after it are never read.  (Nothing is
    run or printed before: the world is unchanged.) *)
Theorem empty_line_raises (w : world) (rest : list string) :
  parse_input "" = Ok []
  ∧ handle_command "" w = (w, Raise IndexError)
  ∧ main_loop ("" :: rest) w = (w, Raise IndexError).
Proof. repeat split. Qed.



(** ** The lexer *)

Lemma append_assoc (s1 s2 s3 : string) : (s1 +:+ s2) +:+ s3 = s1 +:+ s2 +:+ s3.
Proof.
  induction s1 as [| c s1 IH]; [done |].
  change (String c ((s1 +:+ s2) +:+ s3) = String c (s1 +:+ s2 +:+ s3)). by f_equal.
Qed.

Lemma append_nil_r (s : string) : s +:+ "" = s.
Proof.
  induction s as [| c s IH]; [done |].
  change (String c (s +:+ "") = String c s). by f_equal.
Qed.

Lemma feed_app (lx : Shlex.lexer) (s1 s2 : string) :
  Shlex.feed lx (s1 +:+ s2) = Shlex.feed (Shlex.feed lx s1) s2.
Proof. revert lx. induction s1 as [| c s1 IH]; intros lx; cbn; [done | apply IH]. Qed.

Lemma feed_in_comment (lx : Shlex.lexer) (rest : string) :
  Shlex.in_comment lx = true ->
  Str.contains rest (Str.chr 10) = false ->
  Shlex.feed lx rest = lx.
Proof.
  intros Hc. induction rest as [| c rest IH]; cbn; [done |].
  intros [Hne Hrest]%orb_false_elim. apply bool_decide_eq_false in Hne.
  unfold Shlex.read_char. rewrite Hc.
  rewrite bool_decide_eq_false_2 by congruence. by apply IH.
Qed.

Lemma quotes_cases (q : ascii) :
  Str.contains Shlex.quotes q = true -> q = "'"%char ∨ q = Str.chr 34.
Proof.
  cbn. repeat case_bool_decide; auto. discriminate.
Qed.

(** A hash sign read outside quotes and escapes starts a comment; what is
    pending is returned exactly as the end of the input would return it. *)
Lemma read_hash_unquoted (lx : Shlex.lexer) :
  unquoted lx ->
  Shlex.in_comment (Shlex.read_char lx "#") = true ∧
  Shlex.read_eof (Shlex.read_char lx "#") = Shlex.read_eof lx.
Proof.
  destruct lx as [st tok es qd ic em]. unfold unquoted. cbn [Shlex.state].
  intros [-> | ->]; destruct tok, qd, ic; split; vm_compute; reflexivity.
Qed.

(** C8. A hash sign that the lexer reads outside quotes and escapes, at
    the start of a word or in the middle of one, starts a comment: the hash
    sign and every character after it up to the end of the line give no
    token, and the line has the tokens of the text before the hash sign.
    The rules of the specification for quoting do not say so; the default
    comment characters of the lexer do. *)
Theorem hash_starts_comment (pre rest : string) :
  unquoted (Shlex.feed Shlex.initial pre) ->
  Str.contains rest (Str.chr 10) = false ->
  parse_input (pre +:+ "#" +:+ rest) = parse_input pre
  ∧ parse_input "echo a #b" = Ok ["echo"; "a"]
  ∧ parse_input "echo a#b c" = Ok ["echo"; "a"]
  ∧ parse_input "echo 'a #b' \#c" = Ok ["echo"; "a #b"; "#c"].
Proof.
  intros Hun Hrest. split; [| by vm_compute].
  unfold parse_input, Shlex.tokens_of.
  rewrite feed_app. change ("#" +:+ rest) with (String "#" rest). cbn [Shlex.feed].
  destruct (read_hash_unquoted _ Hun) as [Hc Heof].
  by rewrite feed_in_comment.
Qed.

Lemma hash_starts_comment_witness :
  parse_input ("ls -l 'my dir'" +:+ "#" +:+ " list it > out") = parse_input "ls -l 'my dir'".
Proof.
  refine (proj1 (hash_starts_comment "ls -l 'my dir'" " list it > out" _ _)).
  - right. vm_compute. reflexivity.
  - vm_compute. reflexivity.
Defined.

(** Quotes around an operator leave no trace: after them the lexer is in
    the state the bare operator leaves it in, with the same tokens. *)
Lemma feed_quoted_operator (lx : Shlex.lexer) (op : string) (q : ascii) :
  unquoted lx -> is_operator op = true -> Str.contains Shlex.quotes q = true ->
  Shlex.feed lx (" " +:+ String q (op +:+ String q " ")) =
  Shlex.feed lx (" " +:+ op +:+ " ").
Proof.
  intros Hun Hop Hq. destruct lx as [st tok es qd ic em].
  unfold unquoted in Hun. cbn [Shlex.state] in Hun.
  destruct (quotes_cases _ Hq) as [-> | ->];
    destruct (is_operator_cases _ Hop) as [-> | [-> | [-> | [-> | [-> | ->]]]]];
    destruct Hun as [-> | ->]; destruct tok, qd, ic; vm_compute; reflexivity.
Qed.

(** C9. Quotes do not protect an operator.  The lexer strips them, so a
    line with a quoted operator has the tokens of the line with the bare
    operator, and [extract_redirections], which sees only the tokens, takes
    the operator with the token after it: [echo '>' f] is the command
    [echo] with stdout sent to [f].  Whatever the line, no token of the
    command that is left is an operator, so no command gets one as an
    argument. *)
Theorem quoted_operator_redirects (pre post op : string) (q : ascii) :
  unquoted (Shlex.feed Shlex.initial pre) ->
  is_operator op = true ->
  Str.contains Shlex.quotes q = true ->
  parse_input (pre +:+ " " +:+ String q (op +:+ String q " ") +:+ post)
  = parse_input (pre +:+ " " +:+ op +:+ " " +:+ post)
  ∧ (∀ cmd tokens ex,
       parse_input cmd = Ok tokens -> extract_redirections tokens = Ok ex ->
       Forall (fun t => is_operator t = false) (command ex))
  ∧ parse_input "echo '>' f" = Ok ["echo"; ">"; "f"]
  ∧ extract_redirections ["echo"; ">"; "f"] = Ok (Extracted ["echo"] (Some "f") "w" None "w").
Proof.
  intros Hun Hop Hq. split; [| split; [| by vm_compute]].
  - unfold parse_input, Shlex.tokens_of.
    replace (pre +:+ " " +:+ String q (op +:+ String q " ") +:+ post)
      with (pre +:+ (" " +:+ String q (op +:+ String q " ")) +:+ post)
      by by rewrite !append_assoc.
    replace (pre +:+ " " +:+ op +:+ " " +:+ post)
      with (pre +:+ (" " +:+ op +:+ " ") +:+ post)
      by by rewrite !append_assoc.
    rewrite !(feed_app _ pre).
    rewrite (feed_app _ (" " +:+ String q (op +:+ String q " ")) post).
    rewrite (feed_app _ (" " +:+ op +:+ " ") post).
    by rewrite feed_quoted_operator.
  - intros cmd tokens ex _. apply extract_command_plain.
Qed.

Lemma quoted_operator_redirects_witness :
  parse_input ("ls -l" +:+ " " +:+ String (Str.chr 34) ("2>>" +:+ String (Str.chr 34) " ") +:+ "log")
  = parse_input ("ls -l" +:+ " " +:+ "2>>" +:+ " " +:+ "log").
Proof.
  refine (proj1 (quoted_operator_redirects "ls -l" "log" "2>>" (Str.chr 34) _ _ _)).
  - right. vm_compute. reflexivity.
  - reflexivity.
  - reflexivity.
Defined.

(** ** Strings *)

Lemma lstrip_spaces (s : string) :
  Str.all_chars Str.isspace s = true -> Str.lstrip s = "".
Proof.
  induction s as [| c s IH]; cbn; [done |].
  intros [Hc Hs]%andb_true_iff. rewrite Hc. by apply IH.
Qed.

Lemma lstrip_head (s : string) :
  Str.lstrip s = "" ∨ ∃ c t, Str.lstrip s = String c t ∧ Str.isspace c = false.
Proof.
  induction s as [| c s IH]; cbn; [by left |].
  destruct (Str.isspace c) eqn:Hc; [done |]. right. by exists c, s.
Qed.

Lemma lstrip_empty (s : string) :
  Str.lstrip s = "" -> Str.all_chars Str.isspace s = true.
Proof.
  induction s as [| c s IH]; cbn; [done |].
  destruct (Str.isspace c); [done | discriminate].
Qed.

Lemma rstrip_empty (s : string) :
  Str.rstrip s = "" -> Str.all_chars Str.isspace s = true.
Proof.
  induction s as [| c s IH]; cbn; [done |].
  destruct (Str.rstrip s); [| discriminate].
  destruct (Str.isspace c); [| discriminate]. intros _. by apply IH.
Qed.

Lemma strip_blank (s : string) :
  Str.strip s = "" <-> Str.all_chars Str.isspace s = true.
Proof.
  unfold Str.strip. split.
  - intros Hr%rstrip_empty. destruct (lstrip_head s) as [He | (c & t & He & Hc)].
    + by apply lstrip_empty.
    + rewrite He in Hr. cbn in Hr. by rewrite Hc in Hr.
  - intros Hs. by rewrite lstrip_spaces.
Qed.

Lemma not_all_space (s : string) :
  Str.all_chars Str.isspace s = false -> has_nonspace s.
Proof.
  induction s as [| c s IH]; cbn; [done |].
  destruct (Str.isspace c) eqn:Hc; cbn.
  - intros (d & Hd & Hsp)%IH. exists d. split; [| done].
    cbn. rewrite Hd. apply orb_true_r.
  - intros _. exists c. split; [| done]. cbn. by rewrite bool_decide_eq_true_2.
Qed.

(** ** The read loop *)

(** C10. The loop records a line only when [strip] leaves something of it:
    on a line of whitespace alone, or on the empty line, the history (and
    the rest of the state) is as before; on any other line the line itself
    becomes the last entry, so an entry that the loop records holds a
    character that is not whitespace. *)
Theorem record_line_nonblank (cmd : string) (w : world) :
  (Str.all_chars Str.isspace cmd = true -> record_line cmd w = (w, Ok tt))
  ∧ (Str.all_chars Str.isspace cmd = false ->
     record_line cmd w = (set_history (history w ++ [cmd]) w, Ok tt)
     ∧ has_nonspace cmd).
Proof.
  unfold record_line. split.
  - intros Hs%strip_blank. by rewrite bool_decide_eq_true_2.
  - intros Hs. split; [| by apply not_all_space].
    rewrite bool_decide_eq_false_2; [done |].
    intros He%strip_blank. congruence.
Qed.

Lemma record_line_nonblank_witness :
  record_line "   " sample_world = (sample_world, Ok tt)
  ∧ record_line " ls " sample_world
    = (set_history (history sample_world ++ [" ls "]) sample_world, Ok tt)
  ∧ has_nonspace " ls ".
Proof.
  split.
  - apply (proj1 (record_line_nonblank "   " sample_world)). reflexivity.
  - apply (proj2 (record_line_nonblank " ls " sample_world)). reflexivity.
Defined.

(** ** Output *)

Lemma print_ok (text : string) (w : world) :
  ∃ w', print text w = (w', Ok tt) ∧
        cwd w' = cwd w ∧ history w' = history w ∧
        sys_stdout w' = sys_stdout w ∧ sys_stderr w' = sys_stderr w ∧
        last_appended_index w' = last_appended_index w ∧ spawned w' = spawned w.
Proof.
  unfold print, write. destruct (sys_stdout w) eqn:Hs; eexists; (split; [reflexivity |]);
    cbn; by rewrite ?Hs.
Qed.

(** ** cd *)


Lemma os_chdir_not_dir (path : string) (w : world) :
  Str.contains path NUL = false -> stat w path ≠ Some Dir ->
  ∃ e, os_chdir path w = (w, Raise e) ∧ is_OSError e = true.
Proof.
  intros Hn Hs. unfold os_chdir. rewrite Hn.
  destruct (stat w path) as [[|]|]; [done | by eexists | by eexists].
Qed.



(** ** Numerals *)













(** ** exit *)


(** What the flush writes when there is a history file and new entries. *)
Lemma write_to_history_file_appends (w : world) (p : string) (x : bool) (c : string) :
  environ_HISTFILE w = Some p -> p ≠ "" ->
  Str.contains p NUL = false ->
  stat w p = Some (File x c) ->
  0 <= initial_history_length w < Z.of_nat (length (history w)) ->
  write_to_history_file w =
    (set_fs (<[abspath w p :=
                 File x (history_truncate history_length
                           (c +:+ entries_text
                                    (drop (Z.to_nat (initial_history_length w)) (history w))))]>
               (fs w)) w, Ok tt).
Proof.
  intros Hh Hp Hn Hs Hi. unfold write_to_history_file, bind, get. rewrite Hh.
  cbn [Str.truthy negb default]. rewrite bool_decide_eq_false_2 by done.
  cbn [negb]. unfold get_current_history_length.
  destruct (Z.ltb_spec 0 (Z.of_nat (length (history w)) - initial_history_length w)); [| lia].
  unfold append_history_file, id. rewrite Hn, Hs.
  do 8 f_equal. lia.
Qed.



(** The flush needs the file: [append_history_file] raises when HISTFILE
    names a file that does not exist, and [exit_shell] then leaves with that
    exception instead of [SystemExit]. *)
Example exit_shell_histfile_missing :
  let w := World "/home/u" "/home/u" sample_fs (Some "/bin") (Some "/home/u/.hist")
                 ["ls"; "exit 3"] 0 0 TerminalOut TerminalErr "" "" [] in
  exit_shell "3" w = (w, Raise FileNotFoundError).
Proof. vm_compute. reflexivity. Qed.

(** ** history -a *)


Lemma write_file (key text : string) (w : world) :
  write (FileStream key) text w = (append_text key text w, Ok tt).
Proof. done. Qed.

Lemma append_text_empty (key : string) (w : world) (x : bool) (c : string) :
  fs w !! key = Some (File x c) -> append_text key "" w = w.
Proof.
  intros Hk. unfold append_text, file_flag, file_text. rewrite Hk, append_nil_r.
  rewrite insert_id by done. by destruct w.
Qed.

Lemma append_text_twice (key t1 t2 : string) (w : world) :
  append_text key t2 (append_text key t1 w) = append_text key (t1 +:+ t2) w.
Proof.
  unfold append_text, file_flag, file_text. cbn.
  rewrite lookup_insert_eq, insert_insert_eq. by rewrite append_assoc.
Qed.

Lemma for_each_write (key : string) (indices : list Z) (entries : list string) (w : world) :
  (∃ x c, fs w !! key = Some (File x c)) ->
  Forall2 (fun i e => get_history_item w i = Some e) indices entries ->
  for_each indices (fun i =>
      let* item := get (fun w => get_history_item w i) in
      match item with
      | Some text => write (FileStream key) (text +:+ LF)
      | None => raise TypeError
      end) w
  = (append_text key (entries_text entries) w, Ok tt).
Proof.
  intros Hfile Hall. revert w Hfile Hall.
  induction entries as [| e entries IH] in indices |- *; intros w (x & c & Hk) Hall.
  - apply Forall2_nil_inv_r in Hall as ->. cbn.
    by rewrite (append_text_empty key w x c).
  - apply Forall2_cons_inv_r in Hall as (i & indices' & Hi & Hall & ->).
    cbn [for_each]. unfold bind at 1. unfold bind at 1. unfold get at 1.
    rewrite Hi, write_file.
    rewrite IH.
    + rewrite append_text_twice, append_assoc. done.
    + unfold append_text. cbn. rewrite lookup_insert_eq. eauto.
    + eapply Forall2_impl; [exact Hall |]. done.
Qed.

Lemma range_history_items (w : world) (a : Z) :
  0 <= a <= Z.of_nat (length (history w)) ->
  Forall2 (fun i e => get_history_item w i = Some e)
    (range (a + 1) (Z.of_nat (length (history w)) + 1))
    (drop (Z.to_nat a) (history w)).
Proof.
  intros Ha. unfold range. apply Forall2_same_length_lookup_2.
  - rewrite length_seqZ, length_drop. lia.
  - intros j i e [-> Hj]%lookup_seqZ He. rewrite lookup_drop in He.
    unfold get_history_item. destruct (Z.leb_spec 1 (a + 1 + Z.of_nat j)); [| lia].
    rewrite <- He. f_equal. lia.
Qed.

Lemma history_append_spec (path : string) (w : world) :
  path ≠ "" -> Str.contains path NUL = false ->
  fs w !! abspath w path ≠ Some Dir ->
  0 <= last_appended_index w <= Z.of_nat (length (history w)) ->
  history_append path w =
    (set_last_appended_index (Z.of_nat (length (history w)))
       (append_text (abspath w path)
          (entries_text (drop (Z.to_nat (last_appended_index w)) (history w))) w),
     Ok tt).
Proof.
  intros Hp Hn Hd Hl.
  pose proof (range_history_items w _ Hl) as Hitems.
  unfold history_append, with_open, open.
  unfold bind at 1. unfold get at 1. unfold get_current_history_length.
  unfold bind at 1. unfold bind at 1.
  rewrite Hn, bool_decide_eq_false_2 by done.
  destruct (fs w !! abspath w path) as [[| x c] |] eqn:Hk; [done | |].
  - rewrite bool_decide_eq_false_2, bool_decide_eq_true_2 by done.
    unfold bind at 1. unfold get at 1.
    rewrite (for_each_write _ _ _ _ (ex_intro _ x (ex_intro _ c Hk)) Hitems).
    reflexivity.
  - rewrite bool_decide_eq_false_2, bool_decide_eq_true_2 by done.
    cbn [orb]. unfold bind at 1. unfold get at 1.
    set (w0 := set_fs (<[abspath w path := File false ""]> (fs w)) w).
    assert (Hk0 : fs w0 !! abspath w path = Some (File false ""))
      by (unfold w0; cbn; apply lookup_insert_eq).
    change (last_appended_index w0) with (last_appended_index w).
    assert (Hitems0 : Forall2 (fun i e => get_history_item w0 i = Some e)
              (range (last_appended_index w + 1) (Z.of_nat (length (history w)) + 1))
              (drop (Z.to_nat (last_appended_index w)) (history w)))
      by exact Hitems.
    rewrite (for_each_write (abspath w path) _ _ w0
               (ex_intro _ false (ex_intro _ "" Hk0)) Hitems0).
    unfold modify. f_equal. f_equal.
    unfold append_text, w0, file_flag, file_text. cbn.
    rewrite lookup_insert_eq, Hk, insert_insert_eq. done.
Qed.




(** ** What a statement leaves as it is

    The lemmas of this section hold for every relation between states that
    is reflexive and transitive and that the assignments named in the
    hypotheses keep. *)

Lemma set_fs_twice (x y : gmap string node) (w : world) :
  set_fs y (set_fs x w) = set_fs y w.
Proof. done. Qed.

Lemma set_fs_same (w : world) : set_fs (fs w) w = w.
Proof. by destruct w. Qed.

Lemma open_steps (path mode : string) (w w0 : world) (r : result stream) :
  open path mode w = (w0, r) ->
  (∃ x, w0 = set_fs x w) ∧ (∀ f, r = Ok f -> ∃ key, f = FileStream key).
Proof.
  unfold open. repeat (case_match || case_bool_decide); intros [= <- <-];
    (split;
     [first [exists (fs w); by rewrite set_fs_same | by eexists]
     | intros f Hf; try discriminate Hf; injection Hf as <-; by eexists]).
Qed.

Lemma for_each_write_steps (key : string) (indices : list Z) (w w' : world) (r : result unit) :
  for_each indices (fun i =>
      let* item := get (fun w => get_history_item w i) in
      match item with
      | Some text => write (FileStream key) (text +:+ LF)
      | None => raise TypeError
      end) w = (w', r) ->
  ∃ x, w' = set_fs x w.
Proof.
  revert w. induction indices as [| i indices IH]; intros w; cbn [for_each].
  - intros [= <- _]. exists (fs w). by rewrite set_fs_same.
  - unfold bind at 1. unfold bind at 1. unfold get at 1.
    destruct (get_history_item w i) as [text |].
    + rewrite write_file. intros [x ->]%IH. unfold append_text.
      rewrite set_fs_twice. by eexists.
    + intros [= <- _]. exists (fs w). by rewrite set_fs_same.
Qed.

(** [history -a] changes files, and then the mark, which it sets to the
    length of the history. *)
Lemma history_append_steps (path : string) (w w' : world) (r : result unit) :
  history_append path w = (w', r) ->
  (∃ x, w' = set_fs x w)
  ∨ (∃ x, w' = set_last_appended_index (Z.of_nat (length (history w))) (set_fs x w)).
Proof.
  unfold history_append, with_open.
  unfold bind at 1. unfold get at 1. unfold get_current_history_length.
  unfold bind at 1. unfold bind at 1.
  destruct (open path "a" w) as [w0 [f | e]] eqn:Eo.
  - destruct (open_steps _ _ _ _ _ Eo) as [[x ->] Hf].
    destruct (Hf f eq_refl) as [key ->].
    unfold bind at 1. unfold get at 1.
    match goal with
    | |- context [for_each ?l ?b ?w1] => destruct (for_each l b w1) as [w2 [[] | e]] eqn:El
    end; apply for_each_write_steps in El as [y ->]; rewrite set_fs_twice.
    + intros [= <- _]. right. by exists y.
    + intros [= <- _]. left. by exists y.
  - destruct (open_steps _ _ _ _ _ Eo) as [[x ->] _].
    intros [= <- _]. left. by exists x.
Qed.

Section Frame.

Variable R : world -> world -> Prop.
Hypothesis R_refl : ∀ w, R w w.
Hypothesis R_trans : ∀ w1 w2 w3, R w1 w2 -> R w2 w3 -> R w1 w3.
Hypothesis R_fs : ∀ w x, R w (set_fs x w).
Hypothesis R_cwd : ∀ w x, R w (set_cwd x w).
Hypothesis R_terminal_out : ∀ w x, R w (set_terminal_out x w).
Hypothesis R_terminal_err : ∀ w x, R w (set_terminal_err x w).
Hypothesis R_spawned : ∀ w x, R w (set_spawned x w).
Hypothesis R_history : ∀ w l, R w (set_history (history w ++ l) w).
Hypothesis R_mark :
  ∀ w x, R w (set_last_appended_index (Z.of_nat (length (history w))) (set_fs x w)).
Hypothesis R_initial : ∀ w x, R w (set_initial_history_length x w).
Hypothesis R_stdout : ∀ w x, R w (set_sys_stdout x w).
Hypothesis R_stderr : ∀ w x, R w (set_sys_stderr x w).

Lemma kept_ret {A} (a : A) : kept R (ret a).
Proof using R_refl. intros w w' r [= <- _]. apply R_refl. Qed.

Lemma kept_raise {A} (e : exn) : kept R (@raise A e).
Proof using R_refl. intros w w' r [= <- _]. apply R_refl. Qed.

Lemma kept_lift {A} (x : result A) : kept R (lift x).
Proof using R_refl. intros w w' r [= <- _]. apply R_refl. Qed.

Lemma kept_get {A} (f : world -> A) : kept R (get f).
Proof using R_refl. intros w w' r [= <- _]. apply R_refl. Qed.

Lemma kept_bind {A B} (m : M A) (k : A -> M B) :
  kept R m -> (∀ a, kept R (k a)) -> kept R (bind m k).
Proof using R_trans.
  intros Hm Hk w w' r. unfold bind.
  destruct (m w) as [w0 [a | e]] eqn:E.
  - intros Hr. eapply R_trans; [by eapply Hm | by eapply Hk].
  - intros [= <- _]. by eapply Hm.
Qed.

Lemma kept_modify (f : world -> world) : (∀ w, R w (f w)) -> kept R (modify f).
Proof using Type. intros Hf w w' r [= <- _]. apply Hf. Qed.

Lemma kept_try_except {A} (body handler : M A) (catches : exn -> bool) :
  kept R body -> kept R handler -> kept R (try_except body catches handler).
Proof using R_trans.
  intros Hb Hh w w' r. unfold try_except.
  destruct (body w) as [w0 [a | e]] eqn:E.
  - intros [= <- _]. by eapply Hb.
  - destruct (catches e).
    + intros Hr. eapply R_trans; [by eapply Hb | by eapply Hh].
    + intros [= <- _]. by eapply Hb.
Qed.

Lemma kept_for_each {A} (l : list A) (body : A -> M unit) :
  (∀ x, kept R (body x)) -> kept R (for_each l body).
Proof using R_refl R_trans.
  intros Hb. induction l as [| x l IH]; cbn [for_each].
  - apply kept_ret.
  - apply kept_bind; [apply Hb | intros _; apply IH].
Qed.

Lemma kept_if {A} (b : bool) (m1 m2 : M A) :
  kept R m1 -> kept R m2 -> kept R (if b then m1 else m2).
Proof using Type. by destruct b. Qed.

Lemma kept_write (f : stream) (text : string) : kept R (write f text).
Proof using R_fs R_terminal_out R_terminal_err.
  intros w w' r. unfold write. destruct f; intros [= <- _]; auto.
Qed.

Lemma kept_print (text : string) : kept R (print text).
Proof using R_fs R_terminal_out R_terminal_err.
  intros w w' r. unfold print. apply kept_write.
Qed.

Lemma kept_open (path mode : string) : kept R (open path mode).
Proof using R_fs. intros w w' r [[x ->] _]%open_steps. apply R_fs. Qed.

Lemma kept_with_open {A} (path mode : string) (body : stream -> M A) :
  (∀ f, kept R (body f)) -> kept R (with_open path mode body).
Proof using R_fs R_trans. intros Hb. apply kept_bind; [apply kept_open | done]. Qed.

Lemma kept_os_chdir (path : string) : kept R (os_chdir path).
Proof using R_refl R_cwd.
  intros w w' r. unfold os_chdir. repeat case_match; intros [= <- _]; auto.
Qed.

Lemma kept_read_history_file (path : string) : kept R (read_history_file path).
Proof using R_refl R_history.
  intros w w' r. unfold read_history_file. repeat case_match; intros [= <- _]; auto.
Qed.

Lemma kept_write_history_file (path : string) : kept R (write_history_file path).
Proof using R_refl R_fs.
  intros w w' r. unfold write_history_file.
  repeat (case_match || case_bool_decide); intros [= <- _]; auto.
Qed.

Lemma kept_append_history_file (n : Z) (path : string) :
  kept R (append_history_file n path).
Proof using R_refl R_fs.
  intros w w' r. unfold append_history_file. repeat case_match; intros [= <- _]; auto.
Qed.

Lemma kept_add_history (line : string) : kept R (add_history line).
Proof using R_history. apply kept_modify. intros w. apply R_history. Qed.

Lemma kept_find_executable (cmd : string) : kept R (find_executable cmd).
Proof using R_refl. intros w w' r [= <- _]. apply R_refl. Qed.

Lemma kept_subprocess_run (argv : list string) (exe : string) (o e : option stream) :
  kept R (subprocess_run argv exe o e).
Proof using R_spawned. apply kept_modify. intros w. apply R_spawned. Qed.

Lemma kept_history_append (path : string) : kept R (history_append path).
Proof using R_fs R_mark.
  intros w w' r [[x ->] | [x ->]]%history_append_steps; auto.
Qed.

Ltac frame :=
  repeat first
    [ progress intros
    | apply kept_history_append
    | apply kept_ret | apply kept_raise | apply kept_lift | apply kept_get
    | apply kept_write | apply kept_print | apply kept_open
    | apply kept_os_chdir | apply kept_read_history_file
    | apply kept_write_history_file | apply kept_append_history_file
    | apply kept_add_history | apply kept_find_executable
    | apply kept_subprocess_run
    | solve [apply kept_modify; auto]
    | apply kept_with_open
    | apply kept_for_each
    | apply kept_try_except
    | apply kept_if
    | apply kept_bind
    | case_match ].

Lemma kept_write_to_history_file : kept R write_to_history_file.
Proof using R_refl R_trans R_fs. unfold write_to_history_file. frame. Qed.

Lemma kept_exit_shell (input : string) : kept R (exit_shell input).
Proof using R_refl R_trans R_fs.
  unfold exit_shell. apply kept_bind; [apply kept_write_to_history_file | frame].
Qed.

Lemma kept_echo (input : string) : kept R (echo input).
Proof using R_fs R_terminal_out R_terminal_err. apply kept_print. Qed.

Lemma kept_get_cwd (input : string) : kept R (get_cwd input).
Proof using R_refl R_trans R_fs R_terminal_out R_terminal_err.
  unfold get_cwd. frame.
Qed.

Lemma kept_typeOf (input : string) : kept R (typeOf input).
Proof using R_refl R_trans R_fs R_terminal_out R_terminal_err.
  unfold typeOf. frame.
Qed.

Lemma kept_change_directory (input : string) : kept R (change_directory input).
Proof using R_refl R_trans R_fs R_cwd R_terminal_out R_terminal_err.
  unfold change_directory. frame.
Qed.

Lemma kept_get_history (input : string) : kept R (get_history input).
Proof using R_refl R_trans R_fs R_terminal_out R_terminal_err R_history R_mark.
  unfold get_history, history_show. frame.
Qed.

Lemma builtin_kept (name : string) (handler : string -> M unit) (input : string) :
  lookup_builtin name builtin_commands = Some handler -> kept R (handler input).
Proof using R_refl R_trans R_fs R_cwd R_terminal_out R_terminal_err R_history R_mark.
  unfold builtin_commands. cbn [lookup_builtin].
  repeat (case_bool_decide; [intros [= <-] |]); [| | | | | | done].
  - apply kept_exit_shell.
  - apply kept_echo.
  - apply kept_typeOf.
  - apply kept_get_cwd.
  - apply kept_change_directory.
  - apply kept_get_history.
Qed.

Lemma kept_handle_command (cmd : string) : kept R (handle_command cmd).
Proof using All.
  unfold handle_command.
  repeat first
    [ match goal with
      | H : lookup_builtin _ _ = Some ?h |- kept R (?h _) => apply (builtin_kept _ _ _ H)
      end
    | progress frame ].
Qed.

Lemma kept_record_line (cmd : string) : kept R (record_line cmd).
Proof using R_refl R_history. unfold record_line. frame. Qed.

Lemma kept_main_turn (cmd : string) : kept R (main_turn cmd).
Proof using All.
  unfold main_turn. apply kept_bind; [apply kept_record_line |].
  intros _. apply kept_handle_command.
Qed.

Lemma kept_main_loop (lines : list string) : kept R (main_loop lines).
Proof using All.
  induction lines as [| cmd lines IH]; cbn [main_loop].
  - apply kept_raise.
  - apply kept_bind; [apply kept_main_turn | intros _; apply IH].
Qed.

Lemma kept_load_history : kept R load_history.
Proof using R_refl R_trans R_history R_initial. unfold load_history. frame. Qed.

End Frame.

(** ** The invariant of the history log *)

Lemma inv_step_history (w : world) (l : list string) :
  inv_step w (set_history (history w ++ l) w).
Proof. unfold inv_step, history_inv. cbn. rewrite length_app. lia. Qed.

Lemma inv_step_mark (w : world) (x : gmap string node) :
  inv_step w (set_last_appended_index (Z.of_nat (length (history w))) (set_fs x w)).
Proof. unfold inv_step, history_inv. cbn. lia. Qed.

(** The mark never passes the length: every turn of the read loop, however
    it ends, keeps [0 <= last_appended_index <= len(history)], and the state
    at startup, where the mark is 0, has it. *)
Lemma main_loop_keeps_history_inv (lines : list string) (w w' : world) (r : result unit) :
  main_loop lines w = (w', r) -> history_inv w -> history_inv w'.
Proof.
  revert w w' r. change (kept inv_step (main_loop lines)).
  apply kept_main_loop; intros;
    first [apply inv_step_history | apply inv_step_mark
          | unfold inv_step in *; by auto].
Qed.

Lemma load_history_keeps_history_inv (w w' : world) (r : result unit) :
  load_history w = (w', r) -> history_inv w -> history_inv w'.
Proof.
  revert w w' r. change (kept inv_step load_history).
  apply kept_load_history; intros;
    first [apply inv_step_history | unfold inv_step in *; by auto].
Qed.

(** X15. The mark of [history -a] stays inside the log for a whole
    session: started with the mark at zero, [main] on any input lines ends,
    however it ends, in a state where the mark is at least zero and at most
    the number of entries of the log. *)
Lemma main_keeps_history_inv (lines : list string) (w w' : world) (r : result unit) :
  last_appended_index w = 0 -> main lines w = (w', r) -> history_inv w'.
Proof.
  intros H0. assert (Hinv : history_inv w) by (unfold history_inv; lia).
  unfold main, bind.
  destruct (load_history w) as [w0 [[] | e]] eqn:El.
  - intros Hr. eapply main_loop_keeps_history_inv; [done |].
    by eapply load_history_keeps_history_inv.
  - intros [= <- _]. by eapply load_history_keeps_history_inv.
Qed.

(** ** The streams across a dispatch *)

Lemma same_streams_refl (w : world) : same_streams w w.
Proof. done. Qed.

Lemma same_streams_trans (w1 w2 w3 : world) :
  same_streams w1 w2 -> same_streams w2 w3 -> same_streams w1 w3.
Proof. unfold same_streams. intros [??] [??]. split; congruence. Qed.

Lemma builtin_streams_kept (name : string) (handler : string -> M unit) (input : string) :
  lookup_builtin name builtin_commands = Some handler ->
  kept same_streams (handler input).
Proof.
  apply builtin_kept; try done. apply same_streams_trans.
Qed.

Lemma streams_kept_open (path mode : string) (w w' : world) (r : result stream) :
  open path mode w = (w', r) ->
  sys_stdout w' = sys_stdout w ∧ sys_stderr w' = sys_stderr w.
Proof. by intros [[x ->] _]%open_steps. Qed.

(** X16. When a dispatch returns, [sys.stdout] and [sys.stderr] are bound
    to the objects they were bound to before it, with or without
    redirection, for a builtin, an external command and an unknown name. *)
Lemma handle_command_returns_restores (cmd : string) (w w' : world) :
  handle_command cmd w = (w', Ok tt) ->
  sys_stdout w' = sys_stdout w ∧ sys_stderr w' = sys_stderr w.
Proof.
  unfold handle_command. unfold bind at 1. unfold lift at 1.
  destruct (parse_input cmd) as [tokens | e]; [| discriminate].
  unfold bind at 1. unfold lift at 1.
  destruct (extract_redirections tokens) as [[commandArr so sm se em] | e];
    [| discriminate].
  destruct commandArr as [| name rest]; [discriminate |].
  destruct (lookup_builtin name builtin_commands) as [handler |] eqn:Hb.
  - pose proof (builtin_streams_kept name handler (argument_string (name :: rest)) Hb)
      as Hk.
    set (call := handler (argument_string (name :: rest))) in *. clearbody call.
    unfold kept, same_streams in Hk.
    unfold with_open, bind, get, modify.
    repeat case_match; subst; intros Hr; try discriminate;
      try (injection Hr as <-);
      repeat match goal with
      | H : open _ _ _ = _ |- _ => apply streams_kept_open in H as [? ?]
      | H : call _ = _ |- _ => apply Hk in H as [? ?]
      end;
      cbn in *; split; congruence.
  - cbv beta iota.
    match goal with
    | |- ?m w = _ -> _ =>
        assert (Hs : kept same_streams m);
        [| intros Hr; exact (Hs _ _ _ Hr)]
    end.
    apply kept_bind; [apply same_streams_trans | by apply kept_find_executable |].
    intros executable_path.
    repeat first
      [ apply same_streams_trans
      | done
      | progress intros
      | apply kept_subprocess_run
      | apply kept_print
      | apply kept_with_open
      | apply kept_if ].
Qed.

(** C3, where the code fails: the handler of [history -a /] raises
    [IsADirectoryError] (the path names a directory) while the streams are
    redirected; the assignments that restore them come after the call and
    are skipped, so the exception leaves [handle_command] with [sys.stdout]
    and [sys.stderr] bound to the files of the redirection and not to the
    streams of before the dispatch.  The same with one stream redirected. *)
Theorem builtin_raise_leaves_redirection :
  let both := handle_command "history -a / > out.txt 2> err.txt" sample_world in
  let out := handle_command "history -a / > out.txt" sample_world in
  let err := handle_command "history -a / 2> err.txt" sample_world in
  sys_stdout sample_world = TerminalOut ∧ sys_stderr sample_world = TerminalErr
  ∧ both.2 = Raise IsADirectoryError
  ∧ sys_stdout both.1 = FileStream "/home/u/out.txt"
  ∧ sys_stderr both.1 = FileStream "/home/u/err.txt"
  ∧ out.2 = Raise IsADirectoryError
  ∧ sys_stdout out.1 = FileStream "/home/u/out.txt"
  ∧ err.2 = Raise IsADirectoryError
  ∧ sys_stderr err.1 = FileStream "/home/u/err.txt".
Proof. vm_compute. repeat split. Qed.

(** ** The examples of the specification *)

(** [typeOf] tests the names that [_init_builtins] registers. *)
Lemma builtin_names_keys : builtin_names = fst <$> builtin_commands.
Proof. reflexivity. Qed.

(** The loop has no handler: the [IndexError] of a line that ends in an
    operator ends it, after the line was recorded, and the next line is not
    read. *)
Example dangling_operator_ends_loop :
  main_loop ["echo hi >"; "echo again"] sample_world
  = (set_history ["echo hi >"] sample_world, Raise IndexError).
Proof. vm_compute. reflexivity. Qed.

Example redirected_echo_restores :
  let r := handle_command "echo hi > out.txt 2> err.txt" sample_world in
  r.2 = Ok tt ∧ sys_stdout r.1 = TerminalOut ∧ sys_stderr r.1 = TerminalErr
  ∧ file_text (fs r.1) "/home/u/out.txt" = "hi" +:+ LF.
Proof. vm_compute. repeat split. Qed.

Example parse_input_single_quotes : parse_input "'a b'" = Ok ["a b"].
Proof. vm_compute. reflexivity. Qed.

Example parse_input_escaped_quote :
  parse_input (String (Str.chr 34) ("a\" +:+ String (Str.chr 34) ("b" +:+ String (Str.chr 34) "")))
  = Ok ["a" +:+ String (Str.chr 34) "b"].
Proof. vm_compute. reflexivity. Qed.

Example parse_input_unterminated : parse_input "echo 'a" = Raise ValueError.
Proof. vm_compute. reflexivity. Qed.

Example echo_append_accumulates :
  file_text (fs (main_loop ["echo foo >> f"; "echo bar >> f"] sample_world).1) "/home/u/f"
  = "foo" +:+ LF +:+ "bar" +:+ LF.
Proof. vm_compute. reflexivity. Qed.

Example type_reports :
  terminal_out (main_loop ["type cd"; "type nonexistent_cmd_xyz"; "type ls"] sample_world).1
  = "cd is a shell builtin" +:+ LF +:+ "nonexistent_cmd_xyz: not found" +:+ LF
    +:+ "ls is /bin/ls" +:+ LF.
Proof. vm_compute. reflexivity. Qed.

Example cd_then_pwd :
  terminal_out (main_loop ["cd /nonexistent/path"; "pwd"] sample_world).1
  = "cd: /nonexistent/path: No such file or directory" +:+ LF +:+ "/home/u" +:+ LF.
Proof. vm_compute. reflexivity. Qed.

(** In the read loop the second of two [history -a] lines in a row is itself
    a new entry, recorded before it is handled: it appends itself. *)
Example history_a_twice_in_the_loop :
  file_text (fs (main_loop ["ls"; "history -a h"; "history -a h"] sample_world).1) "/home/u/h"
  = "ls" +:+ LF +:+ "history -a h" +:+ LF +:+ "history -a h" +:+ LF.
Proof. vm_compute. reflexivity. Qed.

(** * Further properties *)

(** ** The lexer: words and quotes *)

Ltac by_char c H :=
  destruct c as [[] [] [] [] [] [] [] []];
  vm_compute in H; try discriminate H; try (exfalso; by apply H);
  vm_compute; reflexivity.

Lemma read_char_start_word (c : ascii) (tok : string) (es : ascii) (qd : bool) (em : list string) :
  plain_char c = true ->
  Shlex.read_char (Shlex.Lexer " " tok es qd false em) c
  = Shlex.Lexer "a" (String c "") es qd false em.
Proof. intros H. by_char c H. Qed.

Lemma read_char_in_word (c : ascii) (tok : string) (es : ascii) (qd : bool) (em : list string) :
  plain_char c = true ->
  Shlex.read_char (Shlex.Lexer "a" tok es qd false em) c
  = Shlex.Lexer "a" (tok +:+ String c "") es qd false em.
Proof. intros H. by_char c H. Qed.

Lemma feed_in_word (t tok : string) (es : ascii) (qd : bool) (em : list string) :
  Str.all_chars plain_char t = true ->
  Shlex.feed (Shlex.Lexer "a" tok es qd false em) t
  = Shlex.Lexer "a" (tok +:+ t) es qd false em.
Proof.
  revert tok. induction t as [| c t IH]; intros tok.
  - intros _. cbn. by rewrite append_nil_r.
  - intros [Hc Ht]%andb_true_iff. cbn [Shlex.feed].
    rewrite read_char_in_word, IH by done. by rewrite append_assoc.
Qed.

Lemma feed_word (t : string) (em : list string) :
  plain_word t ->
  Shlex.feed (Shlex.Lexer " " "" " " false false em) t
  = Shlex.Lexer "a" t " " false false em.
Proof.
  intros [Hne Ht]. destruct t as [| c t]; [done |].
  apply andb_true_iff in Ht as [Hc Ht]. cbn [Shlex.feed].
  by rewrite read_char_start_word, feed_in_word.
Qed.

Lemma read_space_after_word (t : string) (em : list string) :
  t ≠ "" ->
  Shlex.read_char (Shlex.Lexer "a" t " " false false em) " "
  = Shlex.Lexer " " "" " " false false (em ++ [t]).
Proof. intros Ht. destruct t; [done |]. vm_compute. reflexivity. Qed.

Lemma feed_words (ws : list string) (em : list string) :
  Forall plain_word ws ->
  Shlex.read_eof (Shlex.feed (Shlex.Lexer " " "" " " false false em) (Str.join " " ws))
  = Ok (em ++ ws).
Proof.
  intros Hws. revert em. induction Hws as [| t ws Ht Hws IH]; intros em.
  - cbn. by rewrite app_nil_r.
  - destruct ws as [| t' ws].
    + cbn [Str.join]. rewrite feed_word by done.
      destruct Ht as [Hne _]. destruct t; [done |]. vm_compute. reflexivity.
    + change (Str.join " " (t :: t' :: ws)) with (t +:+ " " +:+ Str.join " " (t' :: ws)).
      rewrite feed_app, feed_word by done.
      change (" " +:+ Str.join " " (t' :: ws)) with (String " " (Str.join " " (t' :: ws))).
      cbn [Shlex.feed]. rewrite read_space_after_word by apply Ht.
      rewrite IH. by rewrite <- app_assoc.
Qed.

(** X1. Words come back as they went in: a line made of words without
    whitespace, quotes, backslashes and hash signs, with one space between
    them, has exactly these words as its tokens, in their order. *)
Theorem parse_input_join_words (ws : list string) :
  Forall plain_word ws -> parse_input (Str.join " " ws) = Ok ws.
Proof. intros Hws. apply (feed_words ws []). exact Hws. Qed.

Lemma parse_input_join_words_witness :
  parse_input (Str.join " " ["ls"; "-l"; "/tmp/a.b"; "2>"; "err"])
  = Ok ["ls"; "-l"; "/tmp/a.b"; "2>"; "err"].
Proof.
  apply parse_input_join_words. repeat constructor; done.
Defined.

(** After a blank the lexer is between tokens, with what was pending
    returned as the end of the input would return it. *)
Lemma read_space_between_tokens (lx : Shlex.lexer) (toks : list string) :
  between_tokens lx -> Shlex.read_eof lx = Ok toks ->
  ∃ es, Shlex.read_char lx " " = Shlex.Lexer " " "" es false false toks.
Proof.
  destruct lx as [st tok es qd ic em]. unfold between_tokens, unquoted.
  cbn [Shlex.state Shlex.in_comment]. intros [[-> | ->] ->];
    destruct tok, qd; vm_compute; intros [= <-]; by eexists.
Qed.

Lemma read_char_single_quoted (c : ascii) (tok : string) (es : ascii) (qd : bool)
    (em : list string) :
  c ≠ "'"%char ->
  Shlex.read_char (Shlex.Lexer "'" tok es qd false em) c
  = Shlex.Lexer "'" (tok +:+ String c "") es true false em.
Proof. intros H. by_char c H. Qed.

Lemma feed_single_quoted (s tok : string) (es : ascii) (qd : bool) (em : list string) :
  Str.contains s "'" = false ->
  ∃ qd', Shlex.feed (Shlex.Lexer "'" tok es qd false em) s
         = Shlex.Lexer "'" (tok +:+ s) es qd' false em.
Proof.
  revert tok qd. induction s as [| c s IH]; intros tok qd.
  - intros _. exists qd. cbn. by rewrite append_nil_r.
  - cbn [Str.contains]. intros [Hc Hs]%orb_false_elim.
    apply bool_decide_eq_false in Hc.
    cbn [Shlex.feed]. rewrite read_char_single_quoted by congruence.
    destruct (IH (tok +:+ String c "") true Hs) as [qd' ->].
    exists qd'. by rewrite append_assoc.
Qed.

(** X2. Between single quotes every character stands for itself: after
    any text that leaves the lexer between tokens, a blank and a
    single-quoted text add exactly one token, the text as it is, whatever
    blanks, hash signs, backslashes, double quotes or operators it holds,
    and the empty text too. *)
Theorem single_quotes_are_literal (pre s : string) (toks : list string) :
  between_tokens (Shlex.feed Shlex.initial pre) ->
  parse_input pre = Ok toks ->
  Str.contains s "'" = false ->
  parse_input (pre +:+ " '" +:+ s +:+ "'") = Ok (toks ++ [s]).
Proof.
  intros Hb Hp Hs. unfold parse_input, Shlex.tokens_of in *.
  rewrite feed_app.
  change (" '" +:+ s +:+ "'") with (String " " (String "'" (s +:+ "'"))).
  cbn [Shlex.feed].
  destruct (read_space_between_tokens _ _ Hb Hp) as [es ->].
  replace (Shlex.read_char (Shlex.Lexer " " "" es false false toks) "'")
    with (Shlex.Lexer "'" "" es false false toks) by (vm_compute; reflexivity).
  rewrite feed_app.
  destruct (feed_single_quoted s "" es false toks Hs) as [qd' ->].
  destruct s, qd'; vm_compute; reflexivity.
Qed.

Lemma single_quotes_are_literal_witness :
  parse_input ("echo hi" +:+ " '" +:+ "a  b #c \ > d" +:+ "'")
  = Ok (["echo"; "hi"] ++ ["a  b #c \ > d"]).
Proof.
  apply single_quotes_are_literal.
  - split; [right |]; vm_compute; reflexivity.
  - vm_compute. reflexivity.
  - vm_compute. reflexivity.
Defined.

Lemma read_char_double_quoted (c : ascii) (tok : string) (es : ascii) (qd : bool)
    (em : list string) :
  (bool_decide (c = Str.chr 34) || bool_decide (c = "\"%char)) = false ->
  Shlex.read_char (Shlex.Lexer (Str.chr 34) tok es qd false em) c
  = Shlex.Lexer (Str.chr 34) (tok +:+ String c "") es true false em.
Proof. intros H. by_char c H. Qed.

Lemma read_char_double_quoted_escape (c : ascii) (tok : string) (es : ascii) (qd : bool)
    (em : list string) :
  (bool_decide (c = Str.chr 34) || bool_decide (c = "\"%char)) = true ->
  Shlex.read_char
    (Shlex.read_char (Shlex.Lexer (Str.chr 34) tok es qd false em) "\") c
  = Shlex.Lexer (Str.chr 34) (tok +:+ String c "") (Str.chr 34) true false em.
Proof. intros H. by_char c H. Qed.

Lemma feed_double_quoted (s tok : string) (es : ascii) (qd : bool) (em : list string) :
  ∃ es' qd', Shlex.feed (Shlex.Lexer (Str.chr 34) tok es qd false em) (dq_escape s)
             = Shlex.Lexer (Str.chr 34) (tok +:+ s) es' qd' false em.
Proof.
  revert tok es qd. induction s as [| c s IH]; intros tok es qd.
  - exists es, qd. cbn. by rewrite append_nil_r.
  - cbn [dq_escape].
    destruct (bool_decide (c = Str.chr 34) || bool_decide (c = "\"%char)) eqn:Hc;
      cbn [Shlex.feed].
    + rewrite read_char_double_quoted_escape by done.
      destruct (IH (tok +:+ String c "") (Str.chr 34) true) as (es' & qd' & ->).
      exists es', qd'. by rewrite append_assoc.
    + rewrite read_char_double_quoted by done.
      destruct (IH (tok +:+ String c "") es true) as (es' & qd' & ->).
      exists es', qd'. by rewrite append_assoc.
Qed.

(** X3. Double quotes with their escapes give any text back: put a
    backslash before each double quote and each backslash of a text, put the
    result between double quotes after a blank, and the lexer adds exactly
    one token, the text, whatever it holds. *)
Theorem double_quotes_round_trip (pre s : string) (toks : list string) :
  between_tokens (Shlex.feed Shlex.initial pre) ->
  parse_input pre = Ok toks ->
  parse_input (pre +:+ " " +:+ String (Str.chr 34) (dq_escape s +:+ String (Str.chr 34) ""))
  = Ok (toks ++ [s]).
Proof.
  intros Hb Hp. unfold parse_input, Shlex.tokens_of in *.
  rewrite feed_app.
  change (" " +:+ String (Str.chr 34) (dq_escape s +:+ String (Str.chr 34) ""))
    with (String " " (String (Str.chr 34) (dq_escape s +:+ String (Str.chr 34) ""))).
  cbn [Shlex.feed].
  destruct (read_space_between_tokens _ _ Hb Hp) as [es ->].
  replace (Shlex.read_char (Shlex.Lexer " " "" es false false toks) (Str.chr 34))
    with (Shlex.Lexer (Str.chr 34) "" es false false toks) by (vm_compute; reflexivity).
  rewrite feed_app.
  destruct (feed_double_quoted s "" es false toks) as (es' & qd' & ->).
  destruct s, qd'; vm_compute; reflexivity.
Qed.

Lemma double_quotes_round_trip_witness :
  parse_input ("echo" +:+ " " +:+ String (Str.chr 34)
                 (dq_escape ("say " +:+ String (Str.chr 34) "hi\ 'x' #") +:+ String (Str.chr 34) ""))
  = Ok (["echo"] ++ ["say " +:+ String (Str.chr 34) "hi\ 'x' #"]).
Proof.
  apply double_quotes_round_trip.
  - split; [right |]; vm_compute; reflexivity.
  - vm_compute. reflexivity.
Defined.

(** A line that the lexer refuses is refused by [handle_command] before
    anything else happens. *)
Lemma handle_command_parse_raises (cmd : string) (e : exn) (w : world) :
  parse_input cmd = Raise e -> handle_command cmd w = (w, Raise e).
Proof. intros Hp. unfold handle_command, bind, lift. by rewrite Hp. Qed.

Lemma read_quote_between_tokens (lx : Shlex.lexer) :
  between_tokens lx ->
  ∃ tok es qd em, Shlex.read_char lx "'" = Shlex.Lexer "'" tok es qd false em.
Proof.
  destruct lx as [st tok es qd ic em]. unfold between_tokens, unquoted.
  cbn [Shlex.state Shlex.in_comment]. intros [[-> | ->] ->];
    vm_compute; by repeat eexists.
Qed.

Lemma read_backslash_between_tokens (lx : Shlex.lexer) :
  between_tokens lx -> Shlex.read_eof (Shlex.read_char lx "\") = Raise ValueError.
Proof.
  destruct lx as [st tok es qd ic em]. unfold between_tokens, unquoted.
  cbn [Shlex.state Shlex.in_comment]. by intros [[-> | ->] ->].
Qed.

Lemma record_line_records (cmd : string) (w : world) :
  Str.all_chars Str.isspace cmd = false ->
  record_line cmd w = (set_history (history w ++ [cmd]) w, Ok tt).
Proof.
  intros Hs. unfold record_line. rewrite bool_decide_eq_false_2; [done |].
  intros He%strip_blank. congruence.
Qed.

(** X4. A quote that is not closed and a backslash at the end of the line
    are errors that nothing catches: when the text before leaves the lexer
    between tokens, a single quote followed by text without single quote,
    and likewise a final backslash, make [parse_input] raise [ValueError];
    [handle_command] leaves with it in the state it started in, and the
    read loop, which recorded the line, ends with it and reads no further
    line. *)
Theorem unclosed_quote_raises (pre s : string) (w : world) (rest : list string) :
  between_tokens (Shlex.feed Shlex.initial pre) ->
  Str.contains s "'" = false ->
  parse_input (pre +:+ "'" +:+ s) = Raise ValueError
  ∧ parse_input (pre +:+ "\") = Raise ValueError
  ∧ handle_command (pre +:+ "'" +:+ s) w = (w, Raise ValueError)
  ∧ handle_command (pre +:+ "\") w = (w, Raise ValueError)
  ∧ main_loop ((pre +:+ "'" +:+ s) :: rest) w
    = (set_history (history w ++ [pre +:+ "'" +:+ s]) w, Raise ValueError).
Proof.
  intros Hb Hs.
  assert (H1 : parse_input (pre +:+ "'" +:+ s) = Raise ValueError).
  { unfold parse_input, Shlex.tokens_of. rewrite feed_app.
    change ("'" +:+ s) with (String "'" s). cbn [Shlex.feed].
    destruct (read_quote_between_tokens _ Hb) as (tok & es & qd & em & ->).
    by destruct (feed_single_quoted s tok es qd em Hs) as [qd' ->]. }
  assert (H2 : parse_input (pre +:+ "\") = Raise ValueError).
  { unfold parse_input, Shlex.tokens_of. rewrite feed_app. cbn [Shlex.feed].
    by apply read_backslash_between_tokens. }
  repeat split; try done; try by apply handle_command_parse_raises.
  cbn [main_loop]. unfold main_turn, bind at 1 2.
  assert (Hne : Str.all_chars Str.isspace (pre +:+ "'" +:+ s) = false).
  { clear. induction pre as [| c pre IH]; [done |].
    change (String c pre +:+ "'" +:+ s) with (String c (pre +:+ "'" +:+ s)).
    cbn [Str.all_chars]. rewrite IH. apply andb_false_r. }
  rewrite (record_line_records _ _ Hne).
  by rewrite (handle_command_parse_raises _ _ _ H1).
Qed.

Lemma unclosed_quote_raises_witness :
  parse_input ("echo " +:+ "'" +:+ "it is") = Raise ValueError
  ∧ handle_command ("echo " +:+ "\") sample_world = (sample_world, Raise ValueError)
  ∧ main_loop (("echo " +:+ "'" +:+ "it is") :: ["pwd"]) sample_world
    = (set_history (history sample_world ++ ["echo " +:+ "'" +:+ "it is"]) sample_world,
       Raise ValueError).
Proof.
  assert (Hb : between_tokens (Shlex.feed Shlex.initial "echo "))
    by (split; [left |]; vm_compute; reflexivity).
  destruct (unclosed_quote_raises "echo " "it is" sample_world ["pwd"] Hb eq_refl)
    as (H1 & _ & _ & H4 & H5).
  exact (conj H1 (conj H4 H5)).
Defined.

(** ** Redirection extraction: what is left holds no redirection *)

Lemma extract_loop_plain (tokens : list string) (acc : extracted) :
  Forall (fun t => is_operator t = false) tokens ->
  extract_loop tokens acc
  = Ok (Extracted (command acc ++ tokens) (stdout_target acc) (stdout_mode acc)
                  (stderr_target acc) (stderr_mode acc)).
Proof.
  intros Hall. revert acc. induction Hall as [| t tokens Ht _ IH]; intros acc.
  - cbn. rewrite app_nil_r. by destruct acc.
  - rewrite extract_loop_word, IH by done. cbn. by rewrite <- app_assoc.
Qed.

Lemma extract_mode_cases (tokens : list string) (ex : extracted) :
  extract_redirections tokens = Ok ex ->
  (stdout_mode ex = "w" ∨ stdout_mode ex = "a")
  ∧ (stderr_mode ex = "w" ∨ stderr_mode ex = "a")
  ∧ (stdout_target ex = None -> stdout_mode ex = "w")
  ∧ (stderr_target ex = None -> stderr_mode ex = "w").
Proof.
  intros (items & Hok & _ & ->)%extract_ok_items. rewrite scan_items_initial. cbn.
  assert (Hm : ∀ fd, Forall (fun r => r.2 = "w" ∨ r.2 = "a") (redirects_of fd items)).
  { intros fd. clear Hok. induction items as [| [t | op target] items IH]; cbn;
      [constructor | done |].
    case_bool_decide; [| done]. constructor; [| done]. cbn.
    unfold operator_mode. case_bool_decide; auto. }
  assert (Hl : ∀ fd,
    (final_mode (redirects_of fd items) = "w" ∨ final_mode (redirects_of fd items) = "a")
    ∧ (final_target (redirects_of fd items) = None ->
       final_mode (redirects_of fd items) = "w")).
  { intros fd. unfold final_mode, final_target.
    destruct (last (redirects_of fd items)) as [r |] eqn:El; cbn; [| auto].
    split; [| done]. apply last_Some_elem_of in El.
    by apply (proj1 (Forall_forall _ _) (Hm fd)) in El. }
  destruct (Hl 1) as [? ?], (Hl 2) as [? ?]. auto.
Qed.

Lemma words_of_length (items : list item) :
  (length (words_of items) <= length (tokens_of_items items))%nat.
Proof.
  induction items as [| [t | op target] items IH]; [done | |].
  - change (S (length (words_of items)) <= S (length (tokens_of_items items)))%nat. lia.
  - change (length (words_of items) <= S (S (length (tokens_of_items items))))%nat. lia.
Qed.

(** X5. What the extractor leaves holds no redirection, and a sequence
    without operators is left as it is: for every token sequence on which
    [extract_redirections] returns, running it again on the command it
    returned gives that same command, no targets and the default modes; and
    on tokens none of which is an operator it returns the tokens themselves.
    The modes it returns are always w or a, and w for a stream without
    target. *)
Theorem extract_redirections_residual (tokens : list string) (ex : extracted) :
  extract_redirections tokens = Ok ex ->
  extract_redirections (command ex) = Ok (Extracted (command ex) None "w" None "w")
  ∧ (∀ plain, Forall (fun t => is_operator t = false) plain ->
       extract_redirections plain = Ok (Extracted plain None "w" None "w"))
  ∧ (stdout_mode ex = "w" ∨ stdout_mode ex = "a")
  ∧ (stderr_mode ex = "w" ∨ stderr_mode ex = "a")
  ∧ (stdout_target ex = None -> stdout_mode ex = "w")
  ∧ (stderr_target ex = None -> stderr_mode ex = "w")
  ∧ (length (command ex) <= length tokens)%nat.
Proof.
  intros Hex.
  assert (Hplain : ∀ plain, Forall (fun t => is_operator t = false) plain ->
            extract_redirections plain = Ok (Extracted plain None "w" None "w")).
  { intros plain Hp. unfold extract_redirections. by rewrite extract_loop_plain. }
  split; [apply Hplain; by eapply extract_command_plain |].
  split; [done |].
  destruct (extract_mode_cases _ _ Hex) as (? & ? & ? & ?).
  repeat split; try done.
  apply extract_ok_items in Hex as (items & _ & -> & ->). cbn [command scan_items app].
  apply words_of_length.
Qed.

Lemma extract_redirections_residual_witness :
  extract_redirections ["cat"; "x"; "y"] = Ok (Extracted ["cat"; "x"; "y"] None "w" None "w").
Proof.
  exact (proj1 (extract_redirections_residual
    ["2>"; "e1"; "cat"; ">"; "a"; "x"; "1>>"; "b"; "y"]
    (Extracted ["cat"; "x"; "y"] (Some "b") "a" (Some "e1") "w") eq_refl)).
Defined.

(** ** Resolution of a command name *)

Lemma find_in_cons (w : world) (d : string) (dirs : list string) (cmd : string) :
  find_in w (d :: dirs) cmd =
  if holds_executable w cmd d then Some (os_path_join d cmd) else find_in w dirs cmd.
Proof.
  cbn [find_in]. unfold holds_executable.
  destruct (os_path_isdir w d); cbn [negb andb]; [| done].
  by destruct (os_path_isfile w (os_path_join d cmd) && os_access_X_OK w (os_path_join d cmd)).
Qed.

Lemma find_in_none (w : world) (dirs : list string) (cmd : string) :
  find_in w dirs cmd = None <-> Forall (fun d => holds_executable w cmd d = false) dirs.
Proof.
  induction dirs as [| d dirs IH]; [by split; [constructor |] |].
  rewrite find_in_cons, Forall_cons. destruct (holds_executable w cmd d).
  - split; [done | by intros [? _]].
  - rewrite IH. tauto.
Qed.

Lemma find_in_some (w : world) (dirs : list string) (cmd p : string) :
  find_in w dirs cmd = Some p <->
  ∃ before d after,
    dirs = before ++ d :: after
    ∧ Forall (fun d' => holds_executable w cmd d' = false) before
    ∧ holds_executable w cmd d = true
    ∧ p = os_path_join d cmd.
Proof.
  induction dirs as [| d dirs IH].
  - split; [done |]. intros (before & d & after & Hd & _). by destruct before.
  - rewrite find_in_cons. destruct (holds_executable w cmd d) eqn:Hh.
    + split.
      * intros [= <-]. exists [], d, dirs. by repeat split.
      * intros ([| d' before] & d0 & after & Hd & Hb & Hh0 & ->).
        -- by injection Hd as <- _.
        -- injection Hd as <- _. apply Forall_cons in Hb as [Hb _]. congruence.
    + rewrite IH. split.
      * intros (before & d0 & after & -> & Hb & Hh0 & ->).
        exists (d :: before), d0, after. repeat split; [| done..]. by constructor.
      * intros ([| d' before] & d0 & after & Hd & Hb & Hh0 & ->).
        -- injection Hd as <- _. congruence.
        -- injection Hd as <- ->. apply Forall_cons in Hb as [_ Hb].
           by exists before, d0, after.
Qed.

(** X6. [find_executable] answers with the first match and only with a
    match: the result is a path exactly when some directory of PATH is a
    directory and holds a regular file of that name that may be executed,
    and then it is the join of the first such directory with the name; the
    entries before it that are no directories, or hold no such file, are
    passed over.  It answers [None] exactly when no entry matches.  The
    state is left as it is. *)
Theorem find_executable_first_match (w : world) (cmd : string) :
  find_executable cmd w = (w, Ok (find_in w (path_dirs_of w) cmd))
  ∧ (∀ p, find_in w (path_dirs_of w) cmd = Some p <->
       ∃ before d after,
         path_dirs_of w = before ++ d :: after
         ∧ Forall (fun d' => holds_executable w cmd d' = false) before
         ∧ holds_executable w cmd d = true
         ∧ p = os_path_join d cmd)
  ∧ (find_in w (path_dirs_of w) cmd = None <->
       Forall (fun d => holds_executable w cmd d = false) (path_dirs_of w)).
Proof.
  split; [done |]. split; [intros p; apply find_in_some | apply find_in_none].
Qed.

Lemma lookup_builtin_names (name : string) :
  (name ∈ builtin_names <-> is_Some (lookup_builtin name builtin_commands))
  ∧ (name ∉ builtin_names <-> lookup_builtin name builtin_commands = None).
Proof.
  assert (Hin : name ∈ builtin_names -> is_Some (lookup_builtin name builtin_commands)).
  { intros Hin. unfold builtin_names in Hin.
    repeat (apply elem_of_cons in Hin as [-> | Hin]; [by eexists |]).
    by apply elem_of_nil in Hin. }
  assert (Hnot : name ∉ builtin_names -> lookup_builtin name builtin_commands = None).
  { intros Hn. unfold builtin_names in Hn. rewrite !not_elem_of_cons in Hn.
    destruct Hn as (? & ? & ? & ? & ? & ? & _).
    unfold builtin_commands. cbn [lookup_builtin].
    by rewrite !bool_decide_eq_false_2 by congruence. }
  split; split; [done | | done |].
  - intros Hs. destruct (decide (name ∈ builtin_names)) as [| Hn]; [done |].
    rewrite (Hnot Hn) in Hs. by destruct Hs.
  - intros Hl Hi. apply Hin in Hi. rewrite Hl in Hi. by destruct Hi.
Qed.

Lemma find_in_nonempty (w : world) (dirs : list string) (cmd p : string) :
  find_in w dirs cmd = Some p -> p ≠ "".
Proof.
  intros (before & d & after & _ & _ & Hh & ->)%find_in_some.
  unfold holds_executable, os_path_isfile, stat in Hh.
  intros He. rewrite He in Hh. cbn in Hh. by rewrite andb_false_r in Hh.
Qed.


(** ** Dispatch: what runs, and what is started *)

Lemma open_spawned (path mode : string) (w w' : world) (r : result stream) :
  open path mode w = (w', r) -> spawned w' = spawned w.
Proof. by intros [[x ->] _]%open_steps. Qed.

Lemma builtin_same_spawned (name : string) (handler : string -> M unit) (input : string) :
  lookup_builtin name builtin_commands = Some handler ->
  kept same_spawned (handler input).
Proof.
  apply builtin_kept; try done.
  unfold same_spawned. intros w1 w2 w3 H1 H2. congruence.
Qed.

Lemma handle_command_builtin_spawned (cmd : string) (tokens : list string) (ex : extracted)
    (name : string) (args : list string) (handler : string -> M unit) (w : world) :
  parse_input cmd = Ok tokens ->
  extract_redirections tokens = Ok ex ->
  command ex = name :: args ->
  lookup_builtin name builtin_commands = Some handler ->
  spawned (handle_command cmd w).1 = spawned w.
Proof.
  intros Hp Hx Hc Hb. destruct ex as [commandArr so sm se em]. cbn in Hc. subst commandArr.
  unfold handle_command. unfold bind at 1. unfold lift at 1. rewrite Hp.
  unfold bind at 1. unfold lift at 1. rewrite Hx. cbv beta iota. rewrite Hb.
  pose proof (builtin_same_spawned name handler (argument_string (name :: args)) Hb) as Hk.
  set (call := handler (argument_string (name :: args))) in *. clearbody call.
  unfold kept, same_spawned in Hk.
  unfold with_open, bind, get, modify.
  repeat first
    [ case_match
    | match goal with
      | |- context [call ?w0] => destruct (call w0) as [? ?] eqn:?
      end ];
    subst; cbn [fst];
    repeat match goal with
    | H : open _ _ _ = _ |- _ => apply open_spawned in H
    | H : call _ = _ |- _ => apply Hk in H
    end;
    cbn in *; congruence.
Qed.

(** X8. A line starts at most one process, and never for a builtin name:
    whatever [handle_command] does on a line, afterwards either no process
    was started, or the command name is no builtin, [find_executable] found
    a path for it, the call returned, and exactly one process was started,
    with that path as its executable and the whole command that the
    extractor left, name first, as its arguments.  So a name of the
    registry runs the builtin even when PATH holds an executable of that
    name. *)
Theorem dispatch_starts_at_most_one_process (cmd : string) (w w' : world) (r : result unit) :
  handle_command cmd w = (w', r) ->
  spawned w' = spawned w
  ∨ ∃ tokens ex name args p o e,
      parse_input cmd = Ok tokens ∧ extract_redirections tokens = Ok ex
      ∧ command ex = name :: args ∧ (name ∉ builtin_names)
      ∧ find_in w (path_dirs_of w) name = Some p ∧ r = Ok tt
      ∧ spawned w' = spawned w ++ [Spawn (name :: args) p o e].
Proof.
  destruct (parse_input cmd) as [tokens | e0] eqn:Hp.
  2:{ rewrite (handle_command_parse_raises _ _ _ Hp). intros [= <- _]. by left. }
  destruct (extract_redirections tokens) as [ex | e0] eqn:Hx.
  2:{ rewrite (handle_command_extract_raises _ _ _ _ Hp Hx). intros [= <- _]. by left. }
  destruct ex as [[| name args] so sm se em].
  { unfold handle_command, bind, lift. rewrite Hp, Hx. intros [= <- _]. by left. }
  destruct (lookup_builtin name builtin_commands) as [handler |] eqn:Hb.
  { intros Hr. left.
    pose proof (handle_command_builtin_spawned cmd tokens _ name args handler w Hp Hx eq_refl Hb)
      as Hs. by rewrite Hr in Hs. }
  assert (Hn : name ∉ builtin_names) by (by apply lookup_builtin_names).
  unfold handle_command. unfold bind at 1. unfold lift at 1. rewrite Hp.
  unfold bind at 1. unfold lift at 1. rewrite Hx. cbv beta iota. rewrite Hb.
  unfold bind at 1. unfold find_executable. fold (path_dirs_of w).
  destruct (find_in w (path_dirs_of w) name) as [p |] eqn:Hf.
  2:{ cbn [Str.truthy]. intros Hr. left.
      destruct (print_ok (name +:+ ": command not found") w) as (w1 & Hpr & _ & _ & _ & _ & _ & Hs).
      rewrite Hpr in Hr. by injection Hr as <- _. }
  pose proof (find_in_nonempty _ _ _ _ Hf) as Hpne.
  cbn [Str.truthy default]. rewrite (bool_decide_eq_false_2 (p = "")) by done. cbn [negb].
  unfold with_open, bind, subprocess_run, modify.
  repeat case_match; subst; intros [= <- <-];
    repeat match goal with
    | H : open _ _ _ = _ |- _ => apply open_spawned in H
    end;
    first [ left; cbn in *; congruence
          | right; eexists tokens, _, name, args, p, _, _;
            repeat split; try done; try exact Hx; cbn in *;
            repeat match goal with
            | H : spawned _ = spawned _ |- _ => rewrite H
            end; reflexivity ].
Qed.

Lemma dispatch_starts_at_most_one_process_witness :
  spawned (handle_command "ls -l > out" sample_world).1
  = [Spawn ["ls"; "-l"] "/bin/ls" (Some (FileStream "/home/u/out")) None]
  ∧ spawned (handle_command "echo ls" sample_world).1 = [].
Proof.
  split.
  - destruct (dispatch_starts_at_most_one_process "ls -l > out" sample_world
                (handle_command "ls -l > out" sample_world).1
                (handle_command "ls -l > out" sample_world).2) as [H | H].
    + vm_compute. reflexivity.
    + vm_compute. reflexivity.
    + vm_compute. reflexivity.
  - destruct (dispatch_starts_at_most_one_process "echo ls" sample_world
                (handle_command "echo ls" sample_world).1
                (handle_command "echo ls" sample_world).2) as [H | H].
    + vm_compute. reflexivity.
    + exact H.
    + vm_compute. reflexivity.
Defined.

Lemma handle_command_external (cmd : string) (tokens : list string) (name : string)
    (args : list string) (so : option string) (sm : string) (se : option string)
    (em : string) (w : world) :
  parse_input cmd = Ok tokens ->
  extract_redirections tokens = Ok (Extracted (name :: args) so sm se em) ->
  name ∉ builtin_names ->
  handle_command cmd w =
    match find_in w (path_dirs_of w) name with
    | Some p =>
        (if Str.truthy so && Str.truthy se then
           with_open (default "" so) sm (fun stdout_file =>
           with_open (default "" se) em (fun stderr_file =>
             subprocess_run (name :: args) p (Some stdout_file) (Some stderr_file)))
         else if Str.truthy so then
           with_open (default "" so) sm (fun stdout_file =>
             subprocess_run (name :: args) p (Some stdout_file) None)
         else if Str.truthy se then
           with_open (default "" se) em (fun stderr_file =>
             subprocess_run (name :: args) p None (Some stderr_file))
         else subprocess_run (name :: args) p None None) w
    | None => print (name +:+ ": command not found") w
    end.
Proof.
  intros Hp Hx Hn. apply lookup_builtin_names in Hn.
  unfold handle_command. unfold bind at 1. unfold lift at 1. rewrite Hp.
  unfold bind at 1. unfold lift at 1. rewrite Hx. cbv beta iota. rewrite Hn.
  unfold bind at 1. unfold find_executable. fold (path_dirs_of w).
  destruct (find_in w (path_dirs_of w) name) as [p |] eqn:Hf; [| done].
  apply find_in_nonempty in Hf. cbn [Str.truthy default].
  by rewrite (bool_decide_eq_false_2 (p = "")).
Qed.

(** X9. A name that is neither a builtin nor found on PATH is reported and
    nothing else happens: [handle_command] prints [<name>: command not
    found] on the current standard output and returns normally; the targets
    of the redirections of the line are not opened, so no file is created
    or emptied, and nothing is written to them. *)
Theorem unknown_command_is_reported (cmd : string) (tokens : list string) (name : string)
    (args : list string) (so : option string) (sm : string) (se : option string)
    (em : string) (w : world) :
  parse_input cmd = Ok tokens ->
  extract_redirections tokens = Ok (Extracted (name :: args) so sm se em) ->
  name ∉ builtin_names ->
  find_in w (path_dirs_of w) name = None ->
  handle_command cmd w = print (name +:+ ": command not found") w
  ∧ (handle_command cmd w).2 = Ok tt
  ∧ (sys_stdout w = TerminalOut ->
     handle_command cmd w
     = (set_terminal_out (terminal_out w +:+ name +:+ ": command not found" +:+ LF) w, Ok tt)).
Proof.
  intros Hp Hx Hn Hf.
  assert (Hh : handle_command cmd w = print (name +:+ ": command not found") w).
  { rewrite (handle_command_external _ _ _ _ _ _ _ _ _ Hp Hx Hn). by rewrite Hf. }
  rewrite Hh. split; [done |]. split.
  - by destruct (print_ok (name +:+ ": command not found") w) as (w' & -> & _).
  - intros Hs. unfold print, write. rewrite Hs. by rewrite append_assoc.
Qed.

Lemma unknown_command_is_reported_witness :
  handle_command "frobnicate -x > out.txt" sample_world
  = (set_terminal_out ("frobnicate: command not found" +:+ LF) sample_world, Ok tt).
Proof.
  destruct (unknown_command_is_reported "frobnicate -x > out.txt"
              ["frobnicate"; "-x"; ">"; "out.txt"] "frobnicate" ["-x"]
              (Some "out.txt") "w" None "w" sample_world) as (_ & _ & H).
  - vm_compute. reflexivity.
  - reflexivity.
  - vm_compute. intros H. repeat (apply elem_of_cons in H as [H | H]; [discriminate |]).
    by apply elem_of_nil in H.
  - vm_compute. reflexivity.
  - exact (H eq_refl).
Defined.





(** ** history *)








Lemma main_loop_history_grows (lines : list string) : kept history_grows (main_loop lines).
Proof.
  apply kept_main_loop; unfold history_grows; intros; cbn;
    first [done | by apply prefix_app_r | by etrans].
Qed.

Lemma handle_command_history_grows (cmd : string) : kept history_grows (handle_command cmd).
Proof.
  apply kept_handle_command; unfold history_grows; intros; cbn;
    first [done | by apply prefix_app_r | by etrans].
Qed.

(** X14. The log only grows, and a line that was entered is in it: after
    any run of the read loop, however it ends, the log of before is a
    prefix of the log, so no entry is removed or changed; and when the first
    line holds a character that is not whitespace, the log of before
    followed by that line is a prefix too, also when handling the line
    raised. *)
Theorem history_only_grows (lines : list string) (w w' : world) (r : result unit) :
  main_loop lines w = (w', r) ->
  history w `prefix_of` history w'
  ∧ (∀ cmd rest, lines = cmd :: rest -> Str.all_chars Str.isspace cmd = false ->
       (history w ++ [cmd]) `prefix_of` history w').
Proof.
  intros Hr. split; [by apply (main_loop_history_grows lines w w' r) |].
  intros cmd rest -> Hne. cbn [main_loop] in Hr. unfold main_turn in Hr.
  unfold bind at 1 2 in Hr. rewrite (record_line_records _ _ Hne) in Hr.
  destruct (handle_command cmd (set_history (history w ++ [cmd]) w))
    as [w1 [[] | e]] eqn:Hh.
  - apply handle_command_history_grows in Hh. apply main_loop_history_grows in Hr.
    unfold history_grows in *. cbn in Hh. by etrans.
  - injection Hr as <- _. by apply handle_command_history_grows in Hh.
Qed.

Lemma history_only_grows_witness :
  ["pwd"] `prefix_of`
    history (main_loop ["history -r .hist"; "echo >"; "ls"]
               (set_history ["pwd"] history_world)).1
  ∧ (["pwd"] ++ ["history -r .hist"]) `prefix_of`
    history (main_loop ["history -r .hist"; "echo >"; "ls"]
               (set_history ["pwd"] history_world)).1.
Proof.
  destruct (history_only_grows ["history -r .hist"; "echo >"; "ls"]
              (set_history ["pwd"] history_world)
              (main_loop ["history -r .hist"; "echo >"; "ls"]
                 (set_history ["pwd"] history_world)).1
              (main_loop ["history -r .hist"; "echo >"; "ls"]
                 (set_history ["pwd"] history_world)).2) as [H1 H2].
  - by destruct (main_loop _ _).
  - split; [exact H1 |]. by apply (H2 "history -r .hist" ["echo >"; "ls"]).
Defined.

Lemma main_keeps_history_inv_witness :
  history_inv (main ["ls"; "history -a h"; "history -r h"; "echo >"] history_world).1.
Proof.
  apply (main_keeps_history_inv ["ls"; "history -a h"; "history -r h"; "echo >"]
           history_world _ (main ["ls"; "history -a h"; "history -r h"; "echo >"]
                              history_world).2).
  - reflexivity.
  - by destruct (main _ _).
Defined.

Lemma handle_command_returns_restores_witness :
  sys_stdout (handle_command "type ls > out.txt 2>> err.txt" sample_world).1 = TerminalOut
  ∧ sys_stderr (handle_command "type ls > out.txt 2>> err.txt" sample_world).1 = TerminalErr.
Proof.
  apply (handle_command_returns_restores "type ls > out.txt 2>> err.txt" sample_world).
  vm_compute. reflexivity.
Defined.

(** X17. The flush at [exit] does not look at the mark of [history -a]:
    when HISTFILE names an existing file and [history -a] is given that
    same file, the entries after the mark go to the file, and the flush
    that follows adds every entry newer than the startup once more, those
    just appended among them. *)
Theorem flush_after_append_repeats (p : string) (x : bool) (c : string) (w : world) :
  environ_HISTFILE w = Some p -> p ≠ "" ->
  Str.contains p NUL = false ->
  stat w p = Some (File x c) ->
  history_inv w ->
  0 <= initial_history_length w < Z.of_nat (length (history w)) ->
  let appended := entries_text (drop (Z.to_nat (last_appended_index w)) (history w)) in
  let flushed := entries_text (drop (Z.to_nat (initial_history_length w)) (history w)) in
  ∃ w1 w2,
    history_append p w = (w1, Ok tt)
    ∧ file_text (fs w1) (abspath w p) = c +:+ appended
    ∧ write_to_history_file w1 = (w2, Ok tt)
    ∧ file_text (fs w2) (abspath w p)
      = history_truncate history_length ((c +:+ appended) +:+ flushed).
Proof.
  intros Hh Hp Hn Hs Hinv Hi appended flushed.
  assert (Hk : fs w !! abspath w p = Some (File x c)).
  { unfold stat in Hs. by rewrite bool_decide_eq_false_2 in Hs. }
  eexists _, _. split.
  { apply history_append_spec; try done. by rewrite Hk. }
  set (w1 := set_last_appended_index _ _).
  assert (Hs1 : stat w1 p = Some (File x (c +:+ appended))).
  { unfold stat. rewrite bool_decide_eq_false_2 by done.
    unfold w1, append_text, file_flag, file_text. cbn.
    change (abspath _ p) with (abspath w p). by rewrite lookup_insert_eq, Hk. }
  split.
  { unfold w1, append_text, file_flag, file_text. cbn. by rewrite lookup_insert_eq, Hk. }
  split.
  { by apply (write_to_history_file_appends w1 p x (c +:+ appended)). }
  cbn. unfold file_text. change (abspath _ p) with (abspath w p).
  by rewrite lookup_insert_eq.
Qed.

Lemma flush_after_append_repeats_witness :
  ∃ w1 w2,
    history_append "/home/u/.hist" history_world = (w1, Ok tt)
    ∧ write_to_history_file w1 = (w2, Ok tt)
    ∧ file_text (fs w2) "/home/u/.hist"
      = "pwd" +:+ LF +:+ "pwd" +:+ LF +:+ "ls" +:+ LF +:+ "exit 3" +:+ LF
        +:+ "ls" +:+ LF +:+ "exit 3" +:+ LF.
Proof.
  destruct (flush_after_append_repeats "/home/u/.hist" false ("pwd" +:+ LF) history_world)
    as (w1 & w2 & H1 & _ & H2 & H3).
  - reflexivity.
  - discriminate.
  - reflexivity.
  - vm_compute. reflexivity.
  - vm_compute. split; discriminate.
  - vm_compute. split; [discriminate | reflexivity].
  - exists w1, w2. split; [exact H1 |]. split; [exact H2 |].
    etrans; [exact H3 |]. vm_compute. reflexivity.
Defined.

(** ** Startup *)



(** ** Completion *)

Lemma scan_names_elem (w : world) (directory : string) (names : list string)
    (acc : gset string) (name : string) :
  name ∈ scan_names w directory names acc <->
  name ∈ acc
  ∨ (name ∈ names
     ∧ os_path_isfile w (os_path_join directory name)
       && os_access_X_OK w (os_path_join directory name) = true).
Proof.
  revert acc. induction names as [| n names IH]; intros acc; cbn [scan_names].
  - rewrite elem_of_nil. tauto.
  - rewrite IH, elem_of_cons.
    destruct (os_path_isfile w (os_path_join directory n)
              && os_access_X_OK w (os_path_join directory n)) eqn:Hn.
    + rewrite elem_of_union, elem_of_singleton. split.
      * intros [[-> | ?] | [? ?]]; auto.
      * intros [? | [[-> | ?] ?]]; auto.
    + split.
      * intros [? | [? ?]]; auto.
      * intros [? | [[-> | ?] ?]]; auto. congruence.
Qed.

Lemma os_listdir_ok (w : world) (directory : string) (names : list string) :
  os_listdir w directory = Ok names -> os_path_isdir w directory = true.
Proof.
  unfold os_listdir, os_path_isdir. destruct (Str.contains directory NUL); [done |].
  by destruct (stat w directory) as [[|] |].
Qed.

Lemma scan_dirs_elem (w : world) (dirs : list string) (acc ex : gset string) (name : string) :
  scan_dirs w dirs acc = Ok ex -> name ∈ ex ->
  name ∈ acc ∨ ∃ d, d ∈ dirs ∧ holds_executable w name d = true.
Proof.
  revert acc. induction dirs as [| d dirs IH]; intros acc; cbn [scan_dirs].
  - intros [= <-]. auto.
  - destruct (os_listdir w d) as [names | e] eqn:Hl; [| done].
    intros Hs Hin. destruct (IH _ Hs Hin) as [Ha | (d' & Hd & Hh)].
    + apply scan_names_elem in Ha as [Ha | [_ Hx]]; [by left |].
      right. exists d. split; [by left |]. unfold holds_executable.
      by rewrite (os_listdir_ok _ _ _ Hl).
    + right. exists d'. split; [by right | done].
Qed.

Lemma scan_dirs_raises (w : world) (dirs : list string) (acc : gset string) :
  Exists (fun d => os_path_isdir w d = false) dirs ->
  ∃ e, scan_dirs w dirs acc = Raise e.
Proof.
  intros Hex. revert acc. induction Hex as [d dirs Hd | d dirs _ IH]; intros acc;
    cbn [scan_dirs]; destruct (os_listdir w d) as [names | e] eqn:Hl.
  - apply os_listdir_ok in Hl. congruence.
  - by exists e.
  - apply IH.
  - by exists e.
Qed.

Lemma scan_dirs_returns (w : world) (dirs : list string) (acc : gset string) :
  Forall (fun d => os_path_isdir w d = true ∧ Str.contains d NUL = false) dirs ->
  ∃ ex, scan_dirs w dirs acc = Ok ex.
Proof.
  intros Hall. revert acc. induction Hall as [| d dirs [Hd Hn] _ IH]; intros acc;
    cbn [scan_dirs]; [by eexists |].
  unfold os_listdir, os_path_isdir in *. rewrite Hn.
  destruct (stat w d) as [[|] |]; first [done | apply IH].
Qed.

(** X19. The scan for completion collects only names that resolve, and it
    needs every entry of PATH to be a directory: when [get_all_executables]
    scans (the cache is [None] or empty) and returns, the set it returns is
    the new cache and each of its names is one that [find_executable]
    resolves; when some entry of PATH is no directory (PATH not set, an empty
    entry, a path that names nothing or a file) [os.listdir] raises an
    [OSError] other than [PermissionError], which the scan does not catch,
    and the cache stays as it was, while [find_executable] passes such an
    entry over; when every entry is a directory the scan returns. *)
Theorem scan_for_completion (c : option (gset string)) (w : world) :
  cache_truthy c = false ->
  (∀ c' ex, get_all_executables c w = (c', Ok ex) ->
     c' = Some ex
     ∧ ∀ name, name ∈ ex -> ∃ p, find_in w (path_dirs_of w) name = Some p)
  ∧ (Exists (fun d => os_path_isdir w d = false) (path_dirs_of w) ->
     ∃ e, get_all_executables c w = (c, Raise e))
  ∧ (environ_PATH w = None -> get_all_executables c w = (c, Raise FileNotFoundError))
  ∧ (Forall (fun d => os_path_isdir w d = true ∧ Str.contains d NUL = false)
       (path_dirs_of w) ->
     ∃ ex, get_all_executables c w = (Some ex, Ok ex)).
Proof.
  intros Hc. unfold get_all_executables. rewrite Hc. fold (path_dirs_of w).
  split; [| split; [| split]].
  - intros c' ex Hg.
    destruct (scan_dirs w (path_dirs_of w) ∅) as [ex' |] eqn:Hs; [| done].
    injection Hg as <- <-. split; [done |]. intros name Hin.
    destruct (scan_dirs_elem _ _ _ _ _ Hs Hin) as [He | (d & Hd & Hh)];
      [by apply elem_of_empty in He |].
    destruct (find_in w (path_dirs_of w) name) as [p |] eqn:Hf; [by exists p |].
    apply find_in_none in Hf.
    apply (proj1 (Forall_forall _ _) Hf) in Hd. congruence.
  - intros Hex. destruct (scan_dirs_raises w _ ∅ Hex) as [e ->]. by exists e.
  - intros Hp. unfold path_dirs_of. rewrite Hp. reflexivity.
  - intros Hall. destruct (scan_dirs_returns w _ ∅ Hall) as [ex ->]. by exists ex.
Qed.

Lemma scan_for_completion_witness :
  (∃ ex, get_all_executables None sample_world = (Some ex, Ok ex) ∧ "ls" ∈ ex)
  ∧ ∃ e, get_all_executables None
           (World "/home/u" "/home/u" sample_fs (Some "/bin:/opt/none") None [] 0 0
                  TerminalOut TerminalErr "" "" [])
         = (None, Raise e).
Proof.
  split.
  - destruct (scan_for_completion None sample_world eq_refl) as (_ & _ & _ & H).
    destruct H as [ex Hex].
    + repeat constructor.
    + exists ex. split; [exact Hex |].
      assert (Hc : get_all_executables None sample_world
                   = (Some {["ls"]}, Ok {["ls"]})) by (vm_compute; reflexivity).
      rewrite Hc in Hex. injection Hex as <-. by apply elem_of_singleton.
  - destruct (scan_for_completion None
                (World "/home/u" "/home/u" sample_fs (Some "/bin:/opt/none") None [] 0 0
                       TerminalOut TerminalErr "" "" []) eq_refl) as (_ & H & _).
    apply H. apply Exists_cons_tl, Exists_cons_hd. reflexivity.
Defined.

(** X20. The cache of the scan sticks once it is not empty: when a call of
    [get_all_executables] returns a set that is not empty, every later call
    returns that same set without a look at PATH or at the files, whatever
    has changed since; when it returned the empty set, the next call scans
    again, as if there were no cache. *)
Theorem completion_cache_sticks (c : option (gset string)) (w : world)
    (c' : option (gset string)) (ex : gset string) :
  get_all_executables c w = (c', Ok ex) ->
  (ex ≠ ∅ -> ∀ w2, get_all_executables c' w2 = (c', Ok ex))
  ∧ (ex = ∅ -> ∀ w2, (get_all_executables c' w2).2 = (get_all_executables None w2).2).
Proof.
  unfold get_all_executables at 1.
  destruct (cache_truthy c) eqn:Hc.
  - intros [= <- <-]. destruct c as [s |]; [| done]. cbn in *.
    apply negb_true_iff, bool_decide_eq_false in Hc. split; [| done].
    intros _ w2. unfold get_all_executables. cbn. by rewrite bool_decide_eq_false_2.
  - destruct (scan_dirs w _ ∅) as [ex' | e]; [| done]. intros [= <- <-]. split.
    + intros Hne w2. unfold get_all_executables. cbn. by rewrite bool_decide_eq_false_2.
    + intros -> w2. unfold get_all_executables. cbn.
      rewrite bool_decide_eq_true_2 by done. cbn.
      by destruct (scan_dirs w2 _ ∅).
Qed.

Lemma completion_cache_sticks_witness :
  get_all_executables (Some {["ls"]}) (set_fs ∅ sample_world)
  = (Some {["ls"]}, Ok {["ls"]}).
Proof.
  refine (proj1 (completion_cache_sticks None sample_world (Some {["ls"]}) {["ls"]} _) _
            (set_fs ∅ sample_world)).
  - vm_compute. reflexivity.
  - intros H. assert (Hin : "ls" ∈ ({["ls"]} : gset string)) by by apply elem_of_singleton.
    rewrite H in Hin. by apply elem_of_empty in Hin.
Defined.



(** ** Whole lines *)

Lemma handle_command_plain_builtin (ws : list string) (name : string) (args : list string)
    (handler : string -> M unit) (w : world) :
  Forall plain_word ws ->
  Forall (fun t => is_operator t = false) ws ->
  ws = name :: args ->
  lookup_builtin name builtin_commands = Some handler ->
  handle_command (Str.join " " ws) w = handler (Str.join " " args) w.
Proof.
  intros Hw Hop -> Hb.
  assert (Hp : parse_input (Str.join " " (name :: args)) = Ok (name :: args))
    by apply (feed_words (name :: args) [] Hw).
  assert (Hx : extract_redirections (name :: args)
               = Ok (Extracted (name :: args) None "w" None "w")).
  { unfold extract_redirections. by rewrite extract_loop_plain. }
  unfold handle_command. unfold bind at 1. unfold lift at 1. rewrite Hp.
  unfold bind at 1. unfold lift at 1. rewrite Hx. cbv beta iota. by rewrite Hb.
Qed.

(** X22. [echo] gives its words back: for words without whitespace,
    quotes, backslashes and hash signs, none of them an operator, the line
    made of [echo] and the words with one blank between them prints the
    words with one blank between them and a line feed on the current
    standard output, and that is all it does. *)
Theorem echo_prints_words (ws : list string) (w : world) :
  Forall plain_word ws ->
  Forall (fun t => is_operator t = false) ws ->
  handle_command (Str.join " " ("echo" :: ws)) w = print (Str.join " " ws) w
  ∧ (sys_stdout w = TerminalOut ->
     handle_command (Str.join " " ("echo" :: ws)) w
     = (set_terminal_out (terminal_out w +:+ Str.join " " ws +:+ LF) w, Ok tt)).
Proof.
  intros Hw Hop.
  assert (Hh : handle_command (Str.join " " ("echo" :: ws)) w = print (Str.join " " ws) w).
  { apply (handle_command_plain_builtin ("echo" :: ws) "echo" ws echo); try done.
    - constructor; [by split | done].
    - by constructor. }
  split; [done |]. intros Hs. rewrite Hh. unfold print, write. by rewrite Hs.
Qed.

Lemma echo_prints_words_witness :
  handle_command (Str.join " " ("echo" :: ["a"; "-n"; "b.c"])) sample_world
  = (set_terminal_out ("a -n b.c" +:+ LF) sample_world, Ok tt).
Proof.
  destruct (echo_prints_words ["a"; "-n"; "b.c"] sample_world) as [_ H].
  - repeat constructor; done.
  - repeat constructor.
  - exact (H eq_refl).
Defined.






